(** * benchq: the Ruby Slippers graph-state compiler, its ICM front-end
    and the tableau checks of its test-suite.

    The Python sources are embedded shallowly:
    - [Icm]: [get_icm] of tests/benchq/compilation/test_ruby_slippers.py,
      a loop over the circuit's operations that threads a dictionary
      [compiled_qubit_index], the output list [icm_circuit] and the counter
      [icm_circuit_n_qubits];
    - [Orquestra]: the same loop on the operations a circuit of the library
      holds, those with a gate and [ResetOperation], which has none;
    - [Tableau]: [_bool_dot], [commutes], [check_tableau_entries_commute]
      and [assert_tableaus_correspond_to_the_same_stabilizer_state] of the
      same file, over boolean matrices;
    - [GraphTableau], [GraphTableauInt]: the loops of
      [get_stabilizer_tableau_from_vertices], on vertex ids and on Python
      integers with numpy's index rule;
    - [Nx]: [get_nx_graph_from_rbs_adj_list] and
      [create_graph_from_stabilizers] of
      src/benchq/compilation/graph_states/circuit_compilers.py;
    - [RubySlippers]: the graph builder and teleportation recovery, which
      live in the Julia part of the repository; they are modelled from the
      specification and replayed against the parameter table of
      [test_teleportation_produces_correct_number_of_nodes_for_small_circuits]. *)

From stdpp Require Import gmap strings list fin_maps.
From Stdlib Require Import ZArith Lia.

Open Scope Z_scope.

(** ** Exceptions and the error monad *)

(** The exceptions the modelled code can raise: Python's [KeyError],
    [IndexError], [AttributeError], [ValueError] and [AssertionError], and
    the two fatal errors of the compiler's taxonomy. *)
Inductive error : Type :=
  | KeyError (k : Z)
  | IndexError
  | AttributeError
  | ValueError
  | AssertionError
  | UnsupportedGateKind
  | GraphSizeExceeded.

Inductive result (A : Type) : Type :=
  | Ok (a : A)
  | Raise (e : error).

Arguments Ok {A} a.
Arguments Raise {A} e.

#[global] Instance result_ret : MRet result := fun A a => Ok a.

#[global] Instance result_bind : MBind result := fun A B k m =>
  match m with
  | Ok a => k a
  | Raise e => Raise e
  end.

(** A [for] loop whose body may raise. *)
Fixpoint rfold {S A : Type} (f : S -> A -> result S) (s : S) (l : list A) : result S :=
  match l with
  | [] => Ok s
  | x :: r => s' ← f s x; rfold f s' r
  end.

Definition assert_ (b : bool) : result unit :=
  if b then Ok tt else Raise AssertionError.

(** ** Circuits *)

(** An operation that has a gate (orquestra's [GateOperation]): its gate
    (the code only reads [op.gate.name] and calls the gate again on new
    indices, so the name stands for the gate) and the tuple
    [op.qubit_indices]. The library's [ResetOperation], which has no
    attribute [gate], is not of this type: see [Orquestra.operation]. *)
Record Operation : Type := mkOp {
  gate_name : string;
  qubit_indices : list Z
}.

(** [Circuit.operations] and [Circuit.n_qubits]. *)
Record Circuit : Type := mkCircuit {
  operations : list Operation;
  n_qubits : Z
}.

Definition CNOT (c t : Z) : Operation := mkOp "CNOT" [c; t].
Definition H (q : Z) : Operation := mkOp "H" [q].
Definition S_ (q : Z) : Operation := mkOp "S" [q].
Definition X (q : Z) : Operation := mkOp "X" [q].
Definition T (q : Z) : Operation := mkOp "T" [q].
Definition T_Dagger (q : Z) : Operation := mkOp "T_Dagger" [q].
Definition RZ (q : Z) : Operation := mkOp "RZ" [q].
Definition RX (q : Z) : Operation := mkOp "RX" [q].
(** An operation whose gate is NAMED "RESET", the only kind that
    reaches the branch [elif op.gate.name == "RESET"]; it is not the
    library's [ResetOperation]. *)
Definition RESET (q : Z) : Operation := mkOp "RESET" [q].

(** [Circuit(ops)] without an explicit qubit count: one more than the
    largest index used, 0 for the empty circuit. *)
Definition width (ops : list Operation) : Z :=
  foldr Z.max 0 (map (fun q => q + 1) (concat (map qubit_indices ops))).

Definition Circuit_ (ops : list Operation) : Circuit :=
  mkCircuit ops (width ops).

(** Well-formed circuits: every index an operation uses is a qubit of the
    circuit. This is a condition on the caller, not an invariant of the
    library's class: [Circuit([H(5)], n_qubits=2)] is accepted there. *)
Definition wf_circuit (c : Circuit) : Prop :=
  0 <= n_qubits c /\
  Forall (fun op => Forall (fun q => 0 <= q < n_qubits c) (qubit_indices op))
         (operations c).

#[global] Instance wf_circuit_dec (c : Circuit) : Decision (wf_circuit c).
Proof. unfold wf_circuit. apply _. Defined.

(** The Clifford gates, as [get_target_tableau] simulates them (any other
    gate name is its [ValueError]): on one qubit, and the two couplings. *)
Definition single_qubit_cliffords : list string :=
  ["I"; "X"; "Y"; "Z"; "S_Dagger"; "S"; "SX"; "SX_Dagger"; "H"]%string.

Definition couplings : list string := ["CNOT"; "CZ"]%string.

Definition clifford_gates : list string := single_qubit_cliffords ++ couplings.

(** ** ICM normalisation: [get_icm] *)

Module Icm.

(** The three loop variables of [get_icm]. *)
Record state : Type := mkState {
  compiled_qubit_index : gmap Z Z;
  icm_circuit : list Operation;
  icm_circuit_n_qubits : Z
}.

(** [gates_to_decompose=["T", "T_Dagger", "RZ"]] *)
Definition default_gates_to_decompose : list string := ["T"; "T_Dagger"; "RZ"]%string.

(** [compiled_qubit_index = {i: i for i in range(circuit.n_qubits)}],
    [icm_circuit = []], [icm_circuit_n_qubits = circuit.n_qubits - 1]. *)
Definition init (c : Circuit) : state :=
  mkState (list_to_map (map (fun i => (i, i)) (seqZ 0 (n_qubits c))))
          []
          (n_qubits c - 1).

(** Body of the loop over [zip(op.qubit_indices, compiled_qubits)] in the
    decomposition branch. *)
Definition decompose_qubit (st : state) (p : Z * Z) : state :=
  let n := icm_circuit_n_qubits st + 1 in
  mkState (<[p.1 := n]> (compiled_qubit_index st))
          (icm_circuit st ++ [CNOT p.2 n])
          n.

(** Body of the same loop in the RESET branch. *)
Definition reset_qubit (st : state) (p : Z * Z) : state :=
  let n := icm_circuit_n_qubits st + 1 in
  mkState (<[p.1 := n]> (compiled_qubit_index st))
          (icm_circuit st)
          n.

(** [compiled_qubit_index[i]] *)
Definition getitem (m : gmap Z Z) (i : Z) : result Z :=
  match m !! i with
  | Some v => Ok v
  | None => Raise (KeyError i)
  end.

(** One iteration of [for op in circuit.operations]. *)
Definition step (gates_to_decompose : list string) (st : state) (op : Operation)
  : result state :=
  let compiled_qubits :=
    map (fun qubit => default qubit (compiled_qubit_index st !! qubit))
        (qubit_indices op) in
  if bool_decide (gate_name op ∈ gates_to_decompose) then
    Ok (foldl decompose_qubit st (zip (qubit_indices op) compiled_qubits))
  else if bool_decide (gate_name op = "RESET"%string) then
    Ok (foldl reset_qubit st (zip (qubit_indices op) compiled_qubits))
  else
    qs ← mapM (getitem (compiled_qubit_index st)) (qubit_indices op);
    Ok (mkState (compiled_qubit_index st)
                (icm_circuit st ++ [mkOp (gate_name op) qs])
                (icm_circuit_n_qubits st)).

(** The loop, from any state. *)
Definition run (gates_to_decompose : list string) (st : state) (ops : list Operation)
  : result state :=
  rfold (step gates_to_decompose) st ops.

Definition get_icm (c : Circuit) (gates_to_decompose : list string) : result Circuit :=
  st ← run gates_to_decompose (init c) (operations c);
  Ok (Circuit_ (icm_circuit st)).

(** *** The claims' vocabulary, for comparison with the loop *)

(** The operations on which the loop allocates qubit indices: the
    occurrences of a gate to decompose, and the operations whose gate is
    named RESET. *)
Definition allocates (gates_to_decompose : list string) (op : Operation) : bool :=
  bool_decide (gate_name op ∈ gates_to_decompose)
  || bool_decide (gate_name op = "RESET"%string).

(** [k] consecutive indices from [next] on. *)
Fixpoint fresh_indices (next : Z) (k : nat) : list Z :=
  match k with
  | O => []
  | S k' => next :: fresh_indices (next + 1) k'
  end.

(** The allocation log of a run that starts allocating at [next]: the
    pairs (qubit of the input circuit, index allocated for it), oldest
    first. *)
Fixpoint allocation_log (gates_to_decompose : list string) (next : Z)
  (ops : list Operation) : list (Z * Z) :=
  match ops with
  | [] => []
  | op :: rest =>
      let k := length (qubit_indices op) in
      if allocates gates_to_decompose op then
        zip (qubit_indices op) (fresh_indices next k)
        ++ allocation_log gates_to_decompose (next + Z.of_nat k) rest
      else allocation_log gates_to_decompose next rest
  end.

(** The index most recently allocated for [q] in a log, [q] itself when
    the log has none. *)
Definition most_recent (log : list (Z * Z)) (q : Z) : Z :=
  foldl (fun cur p => if bool_decide (p.1 = q) then p.2 else cur) q log.


End Icm.

(** ** Tableau checks of the test-suite *)

Module Tableau.

(** [np.logical_and(x, y)] on one-dimensional arrays: elementwise, a
    length-one array is broadcast, any other length mismatch is an error. *)
Definition logical_and (x y : list bool) : result (list bool) :=
  if bool_decide (length x = length y) then Ok (zip_with andb x y)
  else match x, y with
       | [a], _ => Ok (map (andb a) y)
       | _, [b] => Ok (map (fun a => andb a b) x)
       | _, _ => Raise ValueError
       end.

(** [ans = array_and[0]; for i in array_and[1:]: ans = xor(ans, i)].
    On an empty product the read of [array_and[0]] is out of bounds: the
    compiled ([@njit]) code does no bounds check there and its value is
    unspecified, which [IndexError] stands for; every property below is
    stated on non-empty rows. *)
Definition _bool_dot (x y : list bool) : result bool :=
  array_and ← logical_and x y;
  match array_and with
  | [] => Raise IndexError
  | ans :: rest => Ok (foldl xorb ans rest)
  end.

(** A stabilizer is the row [x-part | z-part]. *)
Definition commutes (stab_1 stab_2 : list bool) : result bool :=
  let n_qubits := (length stab_1 / 2)%nat in
  comm1 ← _bool_dot (take n_qubits stab_1) (drop n_qubits stab_2);
  comm2 ← _bool_dot (drop n_qubits stab_1) (take n_qubits stab_2);
  Ok (negb (xorb comm1 comm2)).

(** [tableau[i]]; past the end the compiled code reads out of bounds,
    which [IndexError] stands for and every property below excludes. *)
Definition row (tableau : list (list bool)) (i : nat) : result (list bool) :=
  match tableau !! i with
  | Some r => Ok r
  | None => Raise IndexError
  end.

(** The index pairs visited by
    [for i in range(n_qubits): for j in range(i, n_qubits)]. *)
Definition visited_pairs (n : nat) : list (nat * nat) :=
  i ← seq 0 n; (fun j => (i, j)) <$> seq i (n - i).

(** The double loop with its early [return False]. *)
Fixpoint all_commute (tableau_1 tableau_2 : list (list bool)) (ps : list (nat * nat))
  : result bool :=
  match ps with
  | [] => Ok true
  | (i, j) :: rest =>
      r1 ← row tableau_1 i;
      r2 ← row tableau_2 j;
      c ← commutes r1 r2;
      if (c : bool) then all_commute tableau_1 tableau_2 rest else Ok false
  end.

Definition check_tableau_entries_commute (tableau_1 tableau_2 : list (list bool))
  : result bool :=
  let n_qubits := (length tableau_1 / 2)%nat in
  all_commute tableau_1 tableau_2 (visited_pairs n_qubits).

(** [tableau.shape] of a two-dimensional array. *)
Definition shape (tableau : list (list bool)) : nat * nat :=
  (length tableau, match tableau with [] => O | r :: _ => length r end).

(** [np.linalg.matrix_rank] of a 0/1 matrix: the rank over the rationals,
    by fraction-free elimination on the leading column. *)
Fixpoint rank_cols (ncols : nat) (rows : list (list Z)) : nat :=
  match ncols with
  | O => O
  | S k =>
      match List.filter (fun r => negb (hd 0 r =? 0)) rows with
      | [] => rank_cols k (map (@tl Z) rows)
      | p :: _ =>
          let others :=
            List.filter (fun r => negb (bool_decide (r = p))) rows in
          S (rank_cols k
               (map (fun r => zip_with (fun a b => hd 0 p * a - hd 0 r * b) (tl r) (tl p))
                    others))
      end
  end.

Definition matrix_rank (tableau : list (list bool)) : nat :=
  rank_cols (snd (shape tableau))
            (map (map (fun b : bool => if b then 1 else 0)) tableau).

(** What [assert f] tests when [f] is a function object: its truthiness,
    which is [True]; [f] is not called. *)
Definition truthiness_of_function : bool := true.

Definition assert_tableaus_correspond_to_the_same_stabilizer_state
  (tableau_1 tableau_2 : list (list bool)) : result unit :=
  assert_ (bool_decide (shape tableau_1 = shape tableau_2));;
  let n_qubits := length tableau_2 in
  (* assert check_tableau_entries_commute *)
  assert_ truthiness_of_function;;
  assert_ (bool_decide (matrix_rank tableau_1 = n_qubits));;
  assert_ (bool_decide (matrix_rank tableau_2 = n_qubits));;
  Ok tt.

End Tableau.

(** ** Graph builder and teleportation recovery *)

Module RubySlippers.

(** [jl.RbSHyperparams(teleportation_threshold, teleportation_distance,
    min_neighbor_degree, max_num_neighbors_to_search, decomposition_strategy)],
    all unsigned. *)
Record RbSHyperparams : Type := mkHyperparams {
  teleportation_threshold : N;
  teleportation_distance : nat;
  min_neighbor_degree : N;
  max_num_neighbors_to_search : N;
  decomposition_strategy : N
}.

(** Modelled from the spec: the GraphState arena (the Julia type behind
    [asg] is not among the sources). One neighbour set per vertex, indexed
    by dense vertex id; the attachment point of every qubit of the
    normalised stream that teleportation has moved; and the number of
    teleportation invocations so far. *)
Record ASG : Type := mkASG {
  edge_data : list (gset nat);
  attachment : gmap Z nat;
  n_teleportations : nat
}.

(** The vertex count, [len(asg["sqp"])] in the tests. *)
Definition n_vertices (asg : ASG) : nat := length (edge_data asg).

(** [asg["edge_data"][v]], empty outside the arena. *)
Definition neighbors (asg : ASG) (v : nat) : gset nat :=
  default ∅ (edge_data asg !! v).

(** The degree of a vertex, compared with the unsigned threshold. *)
Definition degree (asg : ASG) (v : nat) : N := N.of_nat (size (neighbors asg v)).

(** Modelled from the spec: the vertex a qubit is attached to, itself
    until a teleportation marks a chain's tail as its attachment point. *)
Definition vertex_of (asg : ASG) (q : Z) : nat :=
  default (Z.to_nat q) (attachment asg !! q).

(** Modelled from the spec: edges are symmetric. *)
Definition add_edge (u w : nat) (g : list (gset nat)) : list (gset nat) :=
  alter (fun s => s ∪ {[u]}) w (alter (fun s => s ∪ {[w]}) u g).

(** Modelled from the spec: the search for a rebalancing candidate of
    section 4.3 (Julia source absent): among the first
    [max_num_neighbors_to_search] neighbours of [v], one whose degree is at
    least [min_neighbor_degree] and that takes one more edge without going
    over [teleportation_threshold]. The degree floor is read as a filter:
    in the test table the leaves of a star never spare its centre a
    teleportation. *)
Definition rebalancing_candidate (hp : RbSHyperparams) (asg : ASG) (v : nat)
  : option nat :=
  List.find (fun c => (min_neighbor_degree hp <=? degree asg c)%N
                      && (degree asg c + 1 <=? teleportation_threshold hp)%N)
            (take (N.to_nat (max_num_neighbors_to_search hp))
                  (elements (neighbors asg v))).

(** Modelled from the spec: the linear chain of section 4.4, spliced in
    after vertex [v]; returns the arena and the chain's tail. *)
Definition splice_chain (g : list (gset nat)) (v : nat) (chain : list nat)
  : list (gset nat) * nat :=
  foldl (fun acc cur => (add_edge acc.2 cur acc.1, cur)) (g, v) chain.

(** Modelled from the spec: Teleportation Recovery (section 4.4, Julia
    source absent) for the qubit [q] attached to an overloaded vertex:
    [teleportation_distance] fresh vertices form a chain from the vertex,
    the chain's tail becomes the attachment point of [q]. Fails with
    [GraphSizeExceeded] when the arena would outgrow [max_graph_size]. *)
Definition teleportation (hp : RbSHyperparams) (max_graph_size : N) (asg : ASG) (q : Z)
  : result (ASG * nat) :=
  let n := n_vertices asg in
  let d := teleportation_distance hp in
  if (max_graph_size <? N.of_nat (n + d))%N then Raise GraphSizeExceeded
  else
    let spliced :=
      splice_chain (edge_data asg ++ replicate d ∅) (vertex_of asg q) (seq n d) in
    Ok (mkASG spliced.1 (<[q := spliced.2]> (attachment asg)) (S (n_teleportations asg)),
        spliced.2).

(** Modelled from the spec: the degree check on one endpoint of a coupling
    (section 4.3): when the next edge would make the degree exceed
    [teleportation_threshold], a rebalancing candidate takes the edge, and
    teleportation is invoked if there is none. Returns the vertex the new
    edge is attached to. *)
Definition endpoint (hp : RbSHyperparams) (max_graph_size : N) (asg : ASG) (q : Z)
  : result (ASG * nat) :=
  let v := vertex_of asg q in
  if (teleportation_threshold hp <? degree asg v + 1)%N then
    match rebalancing_candidate hp asg v with
    | Some c => Ok (asg, c)
    | None => teleportation hp max_graph_size asg q
    end
  else Ok (asg, v).

(** Modelled from the spec: one step of the Graph Builder (section 4.3)
    on the normalised stream: a coupling checks both endpoints, then adds
    the edge; a single-qubit Clifford only changes a local-Clifford label,
    which the arena above does not carry; any other gate is
    [UnsupportedGateKind]. *)
Definition build_step (hp : RbSHyperparams) (max_graph_size : N) (asg : ASG)
  (op : Operation) : result ASG :=
  match qubit_indices op with
  | [a; b] =>
      if bool_decide (gate_name op ∈ couplings) then
        r1 ← endpoint hp max_graph_size asg a;
        r2 ← endpoint hp max_graph_size r1.1 b;
        Ok (mkASG (add_edge r1.2 r2.2 (edge_data r2.1))
                  (attachment r2.1) (n_teleportations r2.1))
      else Raise UnsupportedGateKind
  | [_] =>
      if bool_decide (gate_name op ∈ single_qubit_cliffords) then Ok asg
      else Raise UnsupportedGateKind
  | _ => Raise UnsupportedGateKind
  end.

(** Modelled from the spec: [compile], as far as the GraphState goes (the
    Julia [get_rbs_graph_state_data] is absent): the ICM loop of [get_icm]
    normalises the circuit, the arena starts with one vertex per qubit
    index allocated so far, and the builder consumes the normalised stream
    in order. The Pauli tracker, the tock accounting and the time budget
    are not modelled. *)
Definition compile (hp : RbSHyperparams) (max_graph_size : N) (c : Circuit)
  : result ASG :=
  icm ← Icm.run Icm.default_gates_to_decompose (Icm.init c) (operations c);
  let n := Z.to_nat (Icm.icm_circuit_n_qubits icm + 1) in
  if (max_graph_size <? N.of_nat n)%N then Raise GraphSizeExceeded
  else
    rfold (build_step hp max_graph_size)
          (mkASG (replicate n ∅) ∅ O)
          (Icm.icm_circuit icm).

(** The default [max_graph_size] of [get_ruby_slippers_circuit_compiler]. *)
Definition default_max_graph_size : N := 10000000.

(** The hyperparameters of the teleportation test:
    [RbSHyperparams(threshold, distance, 6, 1e5, 0)]. *)
Definition test_hyperparams (threshold : N) (distance : nat) : RbSHyperparams :=
  mkHyperparams threshold distance 6 100000 0.

(** [Circuit([H(0), *[CNOT(0, i) for i in range(1, k)]])] *)
Definition star (k : nat) : Circuit :=
  Circuit_ (H 0 :: map (fun i => CNOT 0 (Z.of_nat i)) (seq 1 (k - 1))).

(** The operations the builder accepts: a Clifford gate on one qubit, or a
    coupling on two. *)
Definition normalised (op : Operation) : Prop :=
  (gate_name op ∈ single_qubit_cliffords /\ length (qubit_indices op) = 1%nat)
  \/ (gate_name op ∈ couplings /\ length (qubit_indices op) = 2%nat).

(** The operations [compile] accepts: those, and the ones the normaliser
    removes. *)
Definition supported (op : Operation) : Prop :=
  normalised op \/ Icm.allocates Icm.default_gates_to_decompose op = true.

(** What the test reads off a compilation: [len(asg["sqp"])], and the
    number of teleportations it was parametrised with. *)
Definition nodes_and_teleportations (r : result ASG) : option (nat * nat) :=
  match r with
  | Ok asg => Some (n_vertices asg, n_teleportations asg)
  | Raise _ => None
  end.

End RubySlippers.

(** ** Vocabulary of the further properties *)

(** The gate names one iteration of the ICM loop appends: a CNOT per qubit
    of a decomposed gate, nothing for an operation whose gate is named
    RESET, the gate itself otherwise. *)
Definition emitted_gates (gates_to_decompose : list string) (op : Operation)
  : list string :=
  if bool_decide (gate_name op ∈ gates_to_decompose) then
    replicate (length (qubit_indices op)) "CNOT"%string
  else if bool_decide (gate_name op = "RESET"%string) then []
  else [gate_name op].

(** The sum over the two-element field that [_bool_dot] computes. *)
Definition dot (x y : list bool) : bool := foldr xorb false (zip_with andb x y).

(** The symplectic form of two rows [x-part | z-part] on [m] qubits. *)
Definition symplectic (m : nat) (a b : list bool) : bool :=
  xorb (dot (take m a) (drop m b)) (dot (drop m a) (take m b)).

(** ** The graph-state tableau of the test-suite *)

Module GraphTableau.

(** A vertex of [list(zip(asg["sqs"], asg["edge_data"]))]: [vertex[0]] is
    its local-Clifford label, [vertex[1]] the ids of its neighbours (vertex
    ids, hence natural numbers). *)
Abbreviation vertex := (Z * list nat)%type (only parsing).

(** [np.identity(n, dtype=bool)] and [np.zeros((n, n), dtype=bool)]. *)
Definition identity (n : nat) : list (list bool) :=
  (fun i => <[i := true]> (replicate n false)) <$> seq 0 n.

Definition zeros (n : nat) : list (list bool) := replicate n (replicate n false).

(** [m[i, j] = True] at natural indices, with numpy's bounds check; for
    Python integers, negative ones included, see [setitem_int]. *)
Definition setitem (m : list (list bool)) (i j : nat) : result (list (list bool)) :=
  match m !! i with
  | Some r =>
      if bool_decide (j < length r)%nat then Ok (<[i := <[j := true]> r]> m)
      else Raise IndexError
  | None => Raise IndexError
  end.

(** [enumerate(l)] *)
Definition enumerate {A : Type} (l : list A) : list (nat * A) := imap pair l.

(** The loop that fills [all_zs]:
    [for vertex_id, vertex in enumerate(vertices): for neighbor in vertex[1]:
     all_zs[neighbor, vertex_id] = True; all_zs[vertex_id, neighbor] = True]. *)
Definition all_zs (vertices : list vertex) : result (list (list bool)) :=
  rfold (fun m (iv : nat * vertex) =>
           rfold (fun m neighbor =>
                    m1 ← setitem m neighbor iv.1;
                    setitem m1 iv.1 neighbor)
                 m iv.2.2)
        (zeros (length vertices))
        (enumerate vertices).

(** The arguments [(xs, zs)] of the Pauli strings handed to
    [stim.Tableau.from_stabilizers]: [zip(all_xs, all_zs)]. *)
Definition paulis (vertices : list vertex) : result (list (list bool * list bool)) :=
  zs ← all_zs vertices;
  Ok (zip (identity (length vertices)) zs).

(** A Pauli string as a tableau row [x-part | z-part], the layout of
    [np.column_stack] in [get_tableau_from_stim_simulator]. *)
Definition pauli_row (p : list bool * list bool) : list bool := p.1 ++ p.2.

(** The six [if]s on [pauli_perm_class = vertex[0] - 1]: what one vertex
    appends to [cliffords]. *)
Definition decode (pauli_perm_class : Z) : list (list string) :=
  (if bool_decide (pauli_perm_class = 0) then [[]] else [])
  ++ (if bool_decide (pauli_perm_class = 1) then [["s"%string]] else [])
  ++ (if bool_decide (pauli_perm_class = 2) then [["h"%string]] else [])
  ++ (if bool_decide (pauli_perm_class = 3) then [["h"; "s"; "h"]%string] else [])
  ++ (if bool_decide (pauli_perm_class = 4) then [["s"; "h"]%string] else [])
  ++ (if bool_decide (pauli_perm_class = 5) then [["h"; "s"]%string] else []).

Definition cliffords (vertices : list vertex) : list (list string) :=
  v ← vertices; decode (v.1 - 1).

(** The calls of the inner loop on qubit [i]:
    [for clifford in cs: if clifford == "s": sim.s(i) elif clifford == "h": sim.h(i)]. *)
Definition calls_of (cs : list string) (i : nat) : list (string * nat) :=
  c ← cs;
  if bool_decide (c = "s"%string) then [("s"%string, i)]
  else if bool_decide (c = "h"%string) then [("h"%string, i)]
  else [].

(** One round of [for i in range(n_qubits): for clifford in cliffords[i]],
    on the calls made so far. *)
Definition calls_round (cl : list (list string)) (calls : list (string * nat)) (i : nat)
  : result (list (string * nat)) :=
  match cl !! i with
  | Some cs => Ok (calls ++ calls_of cs i)
  | None => Raise IndexError
  end.

(** The calls [sim.s(i)] and [sim.h(i)] of the last loop, in order. *)
Definition simulator_calls (vertices : list vertex) : result (list (string * nat)) :=
  rfold (calls_round (cliffords vertices)) [] (seq 0 (length vertices)).

(** The entry [m[i, j]] of a boolean matrix, [False] outside of it. *)
Definition entry (m : list (list bool)) (i j : nat) : bool :=
  default false (r ← m !! i; r !! j).

(** The positions the loop of [all_zs] writes, in order. *)
Definition writes (vertices : list vertex) : list (nat * nat) :=
  iv ← enumerate vertices; neighbor ← iv.2.2; [(neighbor, iv.1); (iv.1, neighbor)].

(** Every neighbour id is a vertex id. *)
Definition neighbors_in_range (vertices : list vertex) : Prop :=
  Forall (fun v : vertex => Forall (fun nb => (nb < length vertices)%nat) v.2) vertices.

#[global] Instance neighbors_in_range_dec vertices : Decision (neighbors_in_range vertices).
Proof. unfold neighbors_in_range. apply _. Defined.

(** Every label is one of the six classes 1 to 6. *)
Definition labels_in_range (vertices : list vertex) : Prop :=
  Forall (fun v : vertex => 1 <= v.1 <= 6) vertices.

#[global] Instance labels_in_range_dec vertices : Decision (labels_in_range vertices).
Proof. unfold labels_in_range. apply _. Defined.

(** The gate sequence of a class in range. *)
Definition class_gates (label : Z) : list string :=
  match label with
  | 2 => ["s"]
  | 3 => ["h"]
  | 4 => ["h"; "s"; "h"]
  | 5 => ["s"; "h"]
  | 6 => ["h"; "s"]
  | _ => []
  end%string.

End GraphTableau.

(** A boolean matrix with [n] rows and [n] columns. *)
Definition square (n : nat) (m : list (list bool)) : Prop :=
  length m = n /\ Forall (fun r => length r = n) m.

(** ** Graphs of [circuit_compilers.py] *)

Module Nx.

(** networkx's undirected graph is its adjacency dictionary [_adj], node to
    set of neighbours; the keys are the nodes. [nx.Graph()] is the empty
    dictionary. *)
Definition Graph : gmap nat (gset nat) := ∅.

(** [nx.empty_graph(n)]: the nodes [0 .. n-1], no edge. *)
Definition empty_graph (n : nat) : gmap nat (gset nat) :=
  gset_to_gmap ∅ (list_to_set (seq 0 n)).

(** [if u not in self._node: self._adj[u] = {}] *)
Definition add_missing_node (u : nat) (g : gmap nat (gset nat)) : gmap nat (gset nat) :=
  match g !! u with
  | Some _ => g
  | None => <[u := ∅]> g
  end.

(** [G.add_edge(u, v)]: both ends become nodes, then
    [self._adj[u][v] = datadict; self._adj[v][u] = datadict]. *)
Definition add_edge (u v : nat) (g : gmap nat (gset nat)) : gmap nat (gset nat) :=
  let g1 := add_missing_node v (add_missing_node u g) in
  let g2 := <[u := default ∅ (g1 !! u) ∪ {[v]}]> g1 in
  <[v := default ∅ (g2 !! v) ∪ {[u]}]> g2.

(** [G.has_edge(u, v)]: [v in self._adj[u]], [False] on a missing node. *)
Definition has_edge (g : gmap nat (gset nat)) (u v : nat) : Prop :=
  v ∈ default ∅ (g !! u).

(** [for vertex_id, neighbors in enumerate(adj): for neighbor in neighbors:
     graph.add_edge(vertex_id, neighbor)] on [nx.empty_graph(len(adj))]. *)
Definition get_nx_graph_from_rbs_adj_list (adj : list (list nat)) : gmap nat (gset nat) :=
  foldl (fun graph (iv : nat * list nat) =>
           foldl (fun graph neighbor => add_edge iv.1 neighbor graph) graph iv.2)
        (empty_graph (length adj))
        (GraphTableau.enumerate adj).

(** [create_graph_from_stabilizers(svec)], on the Z fields of the
    stabilizers ([svec[i].Z] is the only field read):
    [for i in range(siz): z = svec[i].Z;
       for j in range(i + 1, siz): if z[j]: G.add_edge(i, j)]. *)
Definition create_graph_from_stabilizers (svec : list (list bool))
  : result (gmap nat (gset nat)) :=
  let siz := length svec in
  rfold (fun G i =>
           match svec !! i with
           | Some z =>
               rfold (fun G j =>
                        match z !! j with
                        | Some b => Ok (if (b : bool) then add_edge i j G else G)
                        | None => Raise IndexError
                        end)
                     G (seq (i + 1) (siz - (i + 1)))
           | None => Raise IndexError
           end)
        Graph (seq 0 siz).

(** The edges that the two loops above add, in order. *)
Definition listed_edges (adj : list (list nat)) : list (nat * nat) :=
  iv ← GraphTableau.enumerate adj; (fun neighbor => (iv.1, neighbor)) <$> iv.2.

Definition upper_edges (svec : list (list bool)) : list (nat * nat) :=
  i ← seq 0 (length svec);
  j ← seq (i + 1) (length svec - (i + 1));
  if GraphTableau.entry svec i j then [(i, j)] else [].

End Nx.

(** ** [get_icm] on the circuits of the library *)

Module Orquestra.

(** What a circuit of orquestra holds: operations that have a gate, and
    [ResetOperation]s, which have [qubit_indices] but no attribute [gate]. *)
Inductive operation : Type :=
  | with_gate (op : Operation)
  | ResetOperation (qubit_index : Z).

(** One iteration of [for op in circuit.operations] on any operation:
    [compiled_qubits] is computed with [dict.get], which never raises, then
    [op.gate.name] is evaluated, which is an [AttributeError] on an
    operation without a gate, before any branch is taken. *)
Definition step (gates_to_decompose : list string) (st : Icm.state) (o : operation)
  : result Icm.state :=
  match o with
  | with_gate op => Icm.step gates_to_decompose st op
  | ResetOperation _ => Raise AttributeError
  end.

(** [get_icm], the circuit being given by [circuit.operations] and
    [circuit.n_qubits], the only attributes read. *)
Definition get_icm (operations : list operation) (n_qubits : Z)
  (gates_to_decompose : list string) : result Circuit :=
  st ← rfold (step gates_to_decompose)
             (Icm.mkState (list_to_map (map (fun i => (i, i)) (seqZ 0 n_qubits)))
                          [] (n_qubits - 1))
             operations;
  Ok (Circuit_ (Icm.icm_circuit st)).

End Orquestra.

(** ** [all_zs] on Python integers *)

Module GraphTableauInt.

(** numpy's rule for an index on an axis of length [n]: an index in
    [0, n) is itself, an index in [-n, 0) counts from the end, any other
    index is an [IndexError]. *)
Definition axis_index (n : nat) (i : Z) : result nat :=
  if bool_decide (0 <= i < Z.of_nat n) then Ok (Z.to_nat i)
  else if bool_decide (- Z.of_nat n <= i < 0) then Ok (Z.to_nat (i + Z.of_nat n))
  else Raise IndexError.

(** [m[i, j] = True] for Python integers [i], [j] on a two-dimensional
    array of shape [(len(m), len(m[0]))]. *)
Definition setitem_int (m : list (list bool)) (i j : Z) : result (list (list bool)) :=
  i' ← axis_index (length m) i;
  j' ← axis_index (snd (Tableau.shape m)) j;
  GraphTableau.setitem m i' j'.

(** The loop that fills [all_zs], for neighbour ids that are Python
    integers:
    [for vertex_id, vertex in enumerate(vertices): for neighbor in vertex[1]:
     all_zs[neighbor, vertex_id] = True; all_zs[vertex_id, neighbor] = True]. *)
Definition all_zs (vertices : list (Z * list Z)) : result (list (list bool)) :=
  rfold (fun m (iv : nat * (Z * list Z)) =>
           rfold (fun m neighbor =>
                    m1 ← setitem_int m neighbor (Z.of_nat iv.1);
                    setitem_int m1 (Z.of_nat iv.1) neighbor)
                 m iv.2.2)
        (GraphTableau.zeros (length vertices))
        (GraphTableau.enumerate vertices).

(** The row or column an in-range index denotes. *)
Definition wrap (n : nat) (i : Z) : nat := Z.to_nat (i `mod` Z.of_nat n).

(** The positions the loop writes, in order. *)
Definition writes (vertices : list (Z * list Z)) : list (Z * Z) :=
  iv ← GraphTableau.enumerate vertices;
  neighbor ← iv.2.2;
  [(neighbor, Z.of_nat iv.1); (Z.of_nat iv.1, neighbor)].

(** Every neighbour id is a valid index of the arrays. *)
Definition ids_in_range (vertices : list (Z * list Z)) : Prop :=
  Forall (fun v : Z * list Z =>
            Forall (fun id => - Z.of_nat (length vertices) <= id
                              < Z.of_nat (length vertices)) v.2)
         vertices.

#[global] Instance ids_in_range_dec vertices : Decision (ids_in_range vertices).
Proof. unfold ids_in_range. apply _. Defined.

End GraphTableauInt.


(** * Properties *)

(** ** The error monad *)

Lemma rfold_app {S A : Type} (f : S -> A -> result S) (s : S) (l1 l2 : list A) :
  rfold f s (l1 ++ l2) = (s' ← rfold f s l1; rfold f s' l2).
Proof.
  revert s. induction l1 as [|x l1 IH]; intros s; simpl; [reflexivity|].
  destruct (f s x) as [s'|e]; simpl; [apply IH | reflexivity].
Qed.

Lemma rfold_invariant {S A : Type} (f : S -> A -> result S) (P : S -> Prop) (l : list A) :
  (forall s x s', x ∈ l -> P s -> f s x = Ok s' -> P s') ->
  forall s s', P s -> rfold f s l = Ok s' -> P s'.
Proof.
  induction l as [|x l IH]; intros Hstep s s' Hs Hrun; simpl in Hrun.
  - congruence.
  - destruct (f s x) as [s1|e] eqn:E; simpl in Hrun; [|discriminate].
    apply (IH (fun s0 y s0' Hy => Hstep s0 y s0' (list_elem_of_further _ _ _ Hy)) s1 s').
    + apply (Hstep s x s1); [left | assumption | assumption].
    + assumption.
Qed.

(** ** The ICM loop *)

Section IcmLoop.
Import Icm.

Lemma length_fresh_indices next k : length (fresh_indices next k) = k.
Proof. revert next. induction k as [|k IH]; intros next; simpl; [|rewrite IH]; reflexivity. Qed.

Lemma elem_of_fresh_indices next k a :
  a ∈ fresh_indices next k -> next <= a < next + Z.of_nat k.
Proof.
  revert next. induction k as [|k IH]; intros next Ha; simpl in Ha.
  - inversion Ha.
  - apply elem_of_cons in Ha as [->|Ha]; [lia|]. apply IH in Ha. lia.
Qed.

(** The loop of the decomposition branch, in closed form. *)
Lemma decompose_loop qs : forall cqs st,
  length qs = length cqs ->
  let st' := foldl decompose_qubit st (zip qs cqs) in
  let next := icm_circuit_n_qubits st + 1 in
  icm_circuit_n_qubits st' = icm_circuit_n_qubits st + Z.of_nat (length qs)
  /\ icm_circuit st' = icm_circuit st ++ zip_with CNOT cqs (fresh_indices next (length qs))
  /\ compiled_qubit_index st'
     = foldl (fun m p => <[p.1 := p.2]> m) (compiled_qubit_index st)
             (zip qs (fresh_indices next (length qs))).
Proof.
  induction qs as [|q qs IH]; intros [|cq cqs] st Hlen; simpl in Hlen; try discriminate.
  - simpl. rewrite app_nil_r. split; [lia|]. split; reflexivity.
  - injection Hlen as Hlen. cbn zeta.
    change (foldl decompose_qubit st (zip (q :: qs) (cq :: cqs)))
      with (foldl decompose_qubit (decompose_qubit st (q, cq)) (zip qs cqs)).
    destruct (IH cqs (decompose_qubit st (q, cq)) Hlen) as (Hn & Hc & Hm).
    cbn zeta in Hn, Hc, Hm. rewrite Hn, Hc, Hm. simpl.
    rewrite <- app_assoc. simpl.
    split; [lia|]. split; reflexivity.
Qed.

(** The loop of the RESET branch, in closed form. *)
Lemma reset_loop qs : forall cqs st,
  length qs = length cqs ->
  let st' := foldl reset_qubit st (zip qs cqs) in
  let next := icm_circuit_n_qubits st + 1 in
  icm_circuit_n_qubits st' = icm_circuit_n_qubits st + Z.of_nat (length qs)
  /\ icm_circuit st' = icm_circuit st
  /\ compiled_qubit_index st'
     = foldl (fun m p => <[p.1 := p.2]> m) (compiled_qubit_index st)
             (zip qs (fresh_indices next (length qs))).
Proof.
  induction qs as [|q qs IH]; intros [|cq cqs] st Hlen; simpl in Hlen; try discriminate.
  - simpl. split; [lia|]. split; reflexivity.
  - injection Hlen as Hlen. cbn zeta.
    change (foldl reset_qubit st (zip (q :: qs) (cq :: cqs)))
      with (foldl reset_qubit (reset_qubit st (q, cq)) (zip qs cqs)).
    destruct (IH cqs (reset_qubit st (q, cq)) Hlen) as (Hn & Hc & Hm).
    cbn zeta in Hn, Hc, Hm. rewrite Hn, Hc, Hm. simpl.
    split; [lia|]. split; reflexivity.
Qed.

(** Reading a dictionary after a series of assignments. *)
Lemma lookup_assignments (ps : list (Z * Z)) : forall (m : gmap Z Z) q v,
  m !! q = Some v ->
  foldl (fun m p => <[p.1 := p.2]> m) m ps !! q
  = Some (foldl (fun cur p => if bool_decide (p.1 = q) then p.2 else cur) v ps).
Proof.
  induction ps as [|[k a] ps IH]; intros m q v Hm; simpl; [assumption|].
  apply IH. case_bool_decide as Hk; simpl in Hk.
  - subst k. apply lookup_insert_eq.
  - rewrite lookup_insert_ne; [assumption | exact Hk].
Qed.

Lemma foldl_pick_bound (ps : list (Z * Z)) (lo hi q : Z) : forall v,
  Forall (fun p => lo <= p.2 <= hi) ps -> lo <= v <= hi ->
  lo <= foldl (fun cur p => if bool_decide (p.1 = q) then p.2 else cur) v ps <= hi.
Proof.
  induction ps as [|p ps IH]; intros v Hps Hv; simpl; [exact Hv|].
  apply Forall_cons in Hps as [Hp Hps]. apply IH; [exact Hps|].
  case_bool_decide; assumption.
Qed.

Lemma most_recent_app log1 log2 q :
  most_recent (log1 ++ log2) q
  = foldl (fun cur p => if bool_decide (p.1 = q) then p.2 else cur)
          (most_recent log1 q) log2.
Proof. unfold most_recent. apply foldl_app. Qed.

(** The most recent index is the qubit itself or an entry of the log. *)
Lemma most_recent_cases log q :
  (most_recent log q = q /\ forall p, p ∈ log -> p.1 <> q)
  \/ (q, most_recent log q) ∈ log.
Proof.
  induction log as [|p log IH] using rev_ind.
  - left. split; [reflexivity|]. intros p Hp. inversion Hp.
  - rewrite most_recent_app. simpl. case_bool_decide as Hp.
    + right. apply elem_of_app. right. destruct p as [k a]. simpl in *. subst k. left.
    + destruct IH as [[Heq Hno]|Hin].
      * left. split; [assumption|]. intros p' Hp'.
        apply elem_of_app in Hp' as [Hp'|Hp']; [auto|].
        apply list_elem_of_singleton in Hp'. subst p'. exact Hp.
      * right. apply elem_of_app. left. exact Hin.
Qed.

Lemma allocation_log_app d l1 : forall next l2,
  allocation_log d next (l1 ++ l2)
  = allocation_log d next l1
    ++ allocation_log d (next + Z.of_nat (length (allocation_log d next l1))) l2.
Proof.
  induction l1 as [|op l1 IH]; intros next l2; simpl.
  - f_equal. lia.
  - destruct (allocates d op).
    + rewrite IH, <- app_assoc. do 2 f_equal.
      rewrite length_app, length_zip_with, length_fresh_indices, Nat.min_id.
      f_equal. lia.
    + apply IH.
Qed.

(** Every entry of the log pairs a qubit of an allocating operation with
    an index from [next] on. *)
Lemma elem_of_allocation_log d ops : forall next p,
  p ∈ allocation_log d next ops ->
  (exists op, op ∈ ops /\ allocates d op = true /\ p.1 ∈ qubit_indices op)
  /\ next <= p.2 < next + Z.of_nat (length (allocation_log d next ops)).
Proof.
  induction ops as [|op ops IH]; intros next p Hp; simpl in Hp.
  - inversion Hp.
  - simpl. destruct (allocates d op) eqn:Ha.
    + rewrite length_app, length_zip_with, length_fresh_indices.
      apply elem_of_app in Hp as [Hp|Hp].
      * destruct p as [q a]. apply elem_of_zip_with in Hp as (q' & a' & Heq & Hq & Ha').
        injection Heq as -> ->. apply elem_of_fresh_indices in Ha'. simpl. split.
        -- exists op. split; [left|]. split; assumption.
        -- lia.
      * apply IH in Hp as [(op' & Hin & Hal & Hq) Hb]. split.
        -- exists op'. split; [right; assumption|]. split; assumption.
        -- lia.
    + apply IH in Hp as [(op' & Hin & Hal & Hq) Hb]. split.
      * exists op'. split; [right; assumption|]. split; assumption.
      * lia.
Qed.


Lemma init_lookup c q :
  0 <= q < n_qubits c -> compiled_qubit_index (init c) !! q = Some q.
Proof.
  intros Hq. unfold init. simpl. apply elem_of_list_to_map_1.
  - replace ((map (fun i => (i, i)) (seqZ 0 (n_qubits c))).*1)
      with (seqZ 0 (n_qubits c)); [apply NoDup_seqZ|].
    induction (seqZ 0 (n_qubits c)) as [|i l IHl]; simpl; [reflexivity|].
    f_equal. exact IHl.
  - apply list_elem_of_fmap. exists q. split; [reflexivity|].
    apply elem_of_seqZ. lia.
Qed.

Lemma mapM_getitem (m : gmap Z Z) (cur : Z -> Z) qs :
  Forall (fun q => m !! q = Some (cur q)) qs ->
  mapM (getitem m) qs = Ok (map cur qs).
Proof.
  induction 1 as [|q qs Hq _ IH]; simpl; [reflexivity|].
  assert (Hget : getitem m q = Ok (cur q)) by (unfold getitem; rewrite Hq; reflexivity).
  rewrite Hget. simpl. rewrite IH. reflexivity.
Qed.

Lemma compiled_qubits_current (m : gmap Z Z) (cur : Z -> Z) qs :
  Forall (fun q => m !! q = Some (cur q)) qs ->
  map (fun qubit => default qubit (m !! qubit)) qs = map cur qs.
Proof.
  induction 1 as [|q qs Hq _ IH]; simpl; [reflexivity|].
  rewrite Hq, IH. reflexivity.
Qed.

(** One iteration in closed form, at a state whose dictionary knows the
    operation's qubits. *)
Lemma step_closed_form d st op (cur : Z -> Z) :
  Forall (fun q => compiled_qubit_index st !! q = Some (cur q)) (qubit_indices op) ->
  let qs := qubit_indices op in
  let fresh := fresh_indices (icm_circuit_n_qubits st + 1) (length qs) in
  let assigned :=
    foldl (fun m p => <[p.1 := p.2]> m) (compiled_qubit_index st) (zip qs fresh) in
  step d st op =
  Ok (if bool_decide (gate_name op ∈ d) then
        mkState assigned
                (icm_circuit st ++ zip_with CNOT (map cur qs) fresh)
                (icm_circuit_n_qubits st + Z.of_nat (length qs))
      else if bool_decide (gate_name op = "RESET"%string) then
        mkState assigned (icm_circuit st)
                (icm_circuit_n_qubits st + Z.of_nat (length qs))
      else
        mkState (compiled_qubit_index st)
                (icm_circuit st ++ [mkOp (gate_name op) (map cur qs)])
                (icm_circuit_n_qubits st)).
Proof.
  intros Hcur qs fresh assigned. unfold step.
  rewrite (compiled_qubits_current _ cur _ Hcur).
  assert (Hlen : length (qubit_indices op) = length (map cur (qubit_indices op)))
    by (rewrite length_map; reflexivity).
  destruct (bool_decide (gate_name op ∈ d)).
  - destruct (decompose_loop _ _ st Hlen) as (Hn & Hc & Hm). cbn zeta in Hn, Hc, Hm.
    destruct (foldl decompose_qubit st _) as [m' c' n']. simpl in Hn, Hc, Hm.
    subst m' c' n'. reflexivity.
  - destruct (bool_decide (gate_name op = "RESET"%string)).
    + destruct (reset_loop _ _ st Hlen) as (Hn & Hc & Hm). cbn zeta in Hn, Hc, Hm.
      destruct (foldl reset_qubit st _) as [m' c' n']. simpl in Hn, Hc, Hm.
      subst m' c' n'. reflexivity.
    + rewrite (mapM_getitem _ cur _ Hcur). reflexivity.
Qed.

(** The states the loop reaches on a prefix of a well-formed circuit: the
    loop does not raise, the counter has advanced by the length of the
    allocation log, the dictionary holds the most recent index of every
    qubit of the circuit, and no emitted operation uses an index beyond
    the counter. *)
Lemma run_reaches c d pre :
  0 <= n_qubits c ->
  Forall (fun op => Forall (fun q => 0 <= q < n_qubits c) (qubit_indices op)) pre ->
  exists st,
    run d (init c) pre = Ok st
    /\ icm_circuit_n_qubits st
       = n_qubits c - 1 + Z.of_nat (length (allocation_log d (n_qubits c) pre))
    /\ (forall q, 0 <= q < n_qubits c ->
         compiled_qubit_index st !! q
         = Some (most_recent (allocation_log d (n_qubits c) pre) q))
    /\ (forall q, 0 <= q < n_qubits c ->
         0 <= most_recent (allocation_log d (n_qubits c) pre) q
           <= icm_circuit_n_qubits st)
    /\ (forall o q, o ∈ icm_circuit st -> q ∈ qubit_indices o ->
         0 <= q <= icm_circuit_n_qubits st).
Proof.
  intros Hn. induction pre as [|op pre IH] using rev_ind; intros Hwf.
  - exists (init c). simpl. split; [reflexivity|]. split; [lia|].
    split; [intros q Hq; apply init_lookup; exact Hq|].
    split; [intros q Hq; unfold most_recent; simpl; lia|].
    intros o q Ho. inversion Ho.
  - apply Forall_app in Hwf as [Hpre Hop]. apply Forall_inv in Hop.
    destruct (IH Hpre) as (st & Hrun & Hcnt & Hdict & Hrange & Hicm). clear IH.
    assert (Hcur : Forall (fun q => compiled_qubit_index st !! q
                     = Some (most_recent (allocation_log d (n_qubits c) pre) q))
                          (qubit_indices op)).
    { eapply Forall_impl; [exact Hop|]. intros q Hq. apply Hdict. exact Hq. }
    pose proof (step_closed_form d st op _ Hcur) as Hstep. cbn zeta in Hstep.
    unfold run in *. rewrite rfold_app, Hrun. simpl. rewrite Hstep.
    eexists. split; [reflexivity|].
    rewrite allocation_log_app. simpl.
    replace (n_qubits c + Z.of_nat (length (allocation_log d (n_qubits c) pre)))
      with (icm_circuit_n_qubits st + 1) by lia.
    set (log := allocation_log d (n_qubits c) pre) in *.
    set (k := length (qubit_indices op)) in *.
    set (fresh := fresh_indices (icm_circuit_n_qubits st + 1) k) in *.
    assert (Hzip : length (zip (qubit_indices op) fresh) = k).
    { rewrite length_zip_with. subst fresh. rewrite length_fresh_indices.
      subst k. apply Nat.min_id. }
    assert (Hnew : forall q, 0 <= q < n_qubits c ->
              0 <= foldl (fun cur p => if bool_decide (p.1 = q) then p.2 else cur)
                         (most_recent log q) (zip (qubit_indices op) fresh)
                <= icm_circuit_n_qubits st + Z.of_nat k).
    { intros q Hq. specialize (Hrange q Hq). apply foldl_pick_bound; [|lia].
      apply Forall_forall. intros [q' a] Hp.
      apply elem_of_zip_with in Hp as (q'' & a' & Heq & _ & Ha).
      injection Heq as -> ->. apply elem_of_fresh_indices in Ha. simpl. lia. }
    assert (Hemit : forall o q,
              o ∈ zip_with CNOT (map (most_recent log) (qubit_indices op)) fresh ->
              q ∈ qubit_indices o -> 0 <= q <= icm_circuit_n_qubits st + Z.of_nat k).
    { intros o q Ho Hq.
      apply elem_of_zip_with in Ho as (cq & a & -> & Hcq & Ha).
      apply elem_of_fresh_indices in Ha.
      apply list_elem_of_fmap in Hcq as (q0 & -> & Hq0).
      assert (0 <= q0 < n_qubits c) as Hq0r
        by (eapply (proj1 (Forall_forall _ _) Hop); exact Hq0).
      specialize (Hrange q0 Hq0r).
      simpl in Hq. apply elem_of_cons in Hq as [->|Hq]; [lia|].
      apply list_elem_of_singleton in Hq. subst q. lia. }
    unfold allocates.
    destruct (bool_decide (gate_name op ∈ d)); simpl;
      [|destruct (bool_decide (gate_name op = "RESET"%string)); simpl];
      rewrite ?app_nil_r, ?length_app, ?Hzip.
    + split; [lia|]. split; [|split].
      * intros q Hq. rewrite most_recent_app. apply lookup_assignments, Hdict, Hq.
      * intros q Hq. rewrite most_recent_app. apply Hnew, Hq.
      * intros o q Ho Hq. apply elem_of_app in Ho as [Ho|Ho].
        -- pose proof (Hicm o q Ho Hq). lia.
        -- apply (Hemit o q Ho Hq).
    + split; [lia|]. split; [|split].
      * intros q Hq. rewrite most_recent_app. apply lookup_assignments, Hdict, Hq.
      * intros q Hq. rewrite most_recent_app. apply Hnew, Hq.
      * intros o q Ho Hq. pose proof (Hicm o q Ho Hq). lia.
    + split; [lia|]. split; [exact Hdict|]. split; [exact Hrange|].
      intros o q Ho Hq. apply elem_of_app in Ho as [Ho|Ho]; [apply (Hicm o q Ho Hq)|].
      apply list_elem_of_singleton in Ho. subst o. simpl in Hq.
      apply list_elem_of_fmap in Hq as (q0 & -> & Hq0).
      apply Hrange. eapply (proj1 (Forall_forall _ _) Hop). exact Hq0.
Qed.

Lemma mapM_getitem_raises (m : gmap Z Z) qs e :
  mapM (getitem m) qs = Raise e -> exists k, e = KeyError k.
Proof.
  induction qs as [|q qs IH]; simpl; [discriminate|].
  destruct (getitem m q) as [v|e0] eqn:G; simpl.
  - destruct (mapM (getitem m) qs) as [vs|e']; simpl; [discriminate|].
    intros [= <-]. apply IH. reflexivity.
  - intros [= <-]. unfold getitem in G.
    destruct (m !! q); [discriminate|]. injection G as <-. exists q. reflexivity.
Qed.

(** The only exception of the loop body is the [KeyError] of the
    dictionary access in its last branch. *)
Lemma step_raises d st op e : step d st op = Raise e -> exists k, e = KeyError k.
Proof.
  unfold step. destruct (bool_decide (gate_name op ∈ d)); [discriminate|].
  destruct (bool_decide (gate_name op = "RESET"%string)); [discriminate|].
  destruct (mapM _ _) as [qs|e'] eqn:E; simpl; [discriminate|].
  intros [= <-]. eapply mapM_getitem_raises. exact E.
Qed.

Lemma run_raises d ops : forall st e,
  run d st ops = Raise e -> exists k, e = KeyError k.
Proof.
  unfold run. induction ops as [|op ops IH]; intros st e; simpl; [discriminate|].
  destruct (step d st op) as [st'|e'] eqn:E; simpl.
  - apply IH.
  - intros [= <-]. eapply step_raises. exact E.
Qed.

(** The loop only ever appends to [icm_circuit]. *)
Lemma step_extends d st op st' :
  step d st op = Ok st' -> exists emitted, icm_circuit st' = icm_circuit st ++ emitted.
Proof.
  unfold step. destruct (bool_decide (gate_name op ∈ d)).
  - intros [= <-].
    edestruct (decompose_loop (qubit_indices op)) as (_ & Hc & _);
      [|eexists; exact Hc].
    rewrite length_map. reflexivity.
  - destruct (bool_decide (gate_name op = "RESET"%string)).
    + intros [= <-].
      edestruct (reset_loop (qubit_indices op)) as (_ & Hc & _);
        [|exists []; rewrite app_nil_r; exact Hc].
      rewrite length_map. reflexivity.
    + destruct (mapM _ _) as [qs|e']; simpl; [|discriminate].
      intros [= <-]. eexists. reflexivity.
Qed.

Lemma run_extends d ops : forall st st',
  run d st ops = Ok st' -> exists emitted, icm_circuit st' = icm_circuit st ++ emitted.
Proof.
  unfold run. induction ops as [|op ops IH]; intros st st'; simpl.
  - intros [= <-]. exists []. rewrite app_nil_r. reflexivity.
  - destruct (step d st op) as [st1|e] eqn:E; simpl; [|discriminate].
    intros Hrun. apply IH in Hrun as [em2 H2]. apply step_extends in E as [em1 H1].
    exists (em1 ++ em2). rewrite H2, H1, app_assoc. reflexivity.
Qed.

Lemma wf_circuit_prefix c pre op post :
  wf_circuit c -> operations c = pre ++ op :: post ->
  0 <= n_qubits c
  /\ Forall (fun op => Forall (fun q => 0 <= q < n_qubits c) (qubit_indices op)) pre
  /\ Forall (fun q => 0 <= q < n_qubits c) (qubit_indices op).
Proof.
  intros [Hn Hwf] Hops. rewrite Hops in Hwf.
  apply Forall_app in Hwf as [Hpre Hrest]. apply Forall_cons in Hrest as [Hop _].
  split; [exact Hn|]. split; assumption.
Qed.

End IcmLoop.

Section IcmClaims.
Import Icm.



(** Where the loop stands when it reaches an operation of a well-formed
    circuit, and what its next iteration does. *)
Lemma prefix_step c d pre op post :
  wf_circuit c ->
  operations c = pre ++ op :: post ->
  let log := allocation_log d (n_qubits c) pre in
  exists st,
    run d (init c) pre = Ok st
    /\ icm_circuit_n_qubits st = n_qubits c - 1 + Z.of_nat (length log)
    /\ (forall q, 0 <= q < n_qubits c ->
         0 <= most_recent log q <= icm_circuit_n_qubits st)
    /\ (forall o q, o ∈ icm_circuit st -> q ∈ qubit_indices o ->
         0 <= q <= icm_circuit_n_qubits st)
    /\ let qs := qubit_indices op in
       let fresh := fresh_indices (icm_circuit_n_qubits st + 1) (length qs) in
       let assigned :=
         foldl (fun m p => <[p.1 := p.2]> m) (compiled_qubit_index st) (zip qs fresh) in
       step d st op =
       Ok (if bool_decide (gate_name op ∈ d) then
             mkState assigned
                     (icm_circuit st ++ zip_with CNOT (map (most_recent log) qs) fresh)
                     (icm_circuit_n_qubits st + Z.of_nat (length qs))
           else if bool_decide (gate_name op = "RESET"%string) then
             mkState assigned (icm_circuit st)
                     (icm_circuit_n_qubits st + Z.of_nat (length qs))
           else
             mkState (compiled_qubit_index st)
                     (icm_circuit st ++ [mkOp (gate_name op) (map (most_recent log) qs)])
                     (icm_circuit_n_qubits st)).
Proof.
  intros Hwf Hops log.
  destruct (wf_circuit_prefix c pre op post Hwf Hops) as (Hn & Hpre & Hop).
  destruct (run_reaches c d pre Hn Hpre) as (st & Hrun & Hcnt & Hdict & Hrange & Hicm).
  fold log in Hcnt, Hdict, Hrange.
  exists st. split; [exact Hrun|]. split; [exact Hcnt|].
  split; [exact Hrange|]. split; [exact Hicm|].
  apply step_closed_form.
  eapply Forall_impl; [exact Hop|]. intros q Hq. apply Hdict. exact Hq.
Qed.

Example get_icm_t_reset :
  get_icm (Circuit_ [H 0; T 0; RESET 1; CNOT 0 1]) default_gates_to_decompose
  = Ok (Circuit_ [H 0; CNOT 0 2; CNOT 2 3]).
Proof. vm_compute. reflexivity. Qed.

End IcmClaims.

(** ** The tableau checks *)

Section TableauClaims.
Import Tableau.

(** What the assertions of
    [assert_tableaus_correspond_to_the_same_stabilizer_state] amount to:
    equal shapes and two full ranks; commutation plays no part. *)
Lemma assert_tableaus_passes_iff tableau_1 tableau_2 :
  assert_tableaus_correspond_to_the_same_stabilizer_state tableau_1 tableau_2 = Ok tt
  <-> shape tableau_1 = shape tableau_2
      /\ matrix_rank tableau_1 = length tableau_2
      /\ matrix_rank tableau_2 = length tableau_2.
Proof.
  unfold assert_tableaus_correspond_to_the_same_stabilizer_state, assert_,
    truthiness_of_function.
  repeat case_bool_decide; simpl; split; try discriminate; tauto.
Qed.

(** XX and ZZ commute, X and Z do not. *)
Example commutes_xx_zz :
  commutes [true; true; false; false] [false; false; true; true] = Ok true
  /\ commutes [true; false] [false; true] = Ok false.
Proof. split; vm_compute; reflexivity. Qed.

(** C1, where the code departs from it: on the one-qubit tableaus of the
    stabilizers X and Z, which anticommute, every assertion of
    [assert_tableaus_correspond_to_the_same_stabilizer_state] passes: the
    commutation check is asserted as a function object and never called,
    and had it been called it would have returned [True] as well, because
    it halves the number of rows and visits no pair. *)
Theorem C1_anticommuting_tableaus_pass_the_assertions :
  assert_tableaus_correspond_to_the_same_stabilizer_state [[true; false]] [[false; true]]
  = Ok tt
  /\ commutes [true; false] [false; true] = Ok false
  /\ check_tableau_entries_commute [[true; false]] [[false; true]] = Ok true.
Proof. repeat split; vm_compute; reflexivity. Qed.

End TableauClaims.

(** ** The graph builder *)

Section BuilderClaims.
Import RubySlippers.

Lemma length_add_edge u w g : length (add_edge u w g) = length g.
Proof. unfold add_edge. rewrite !length_alter. reflexivity. Qed.

Lemma length_splice_chain chain : forall g v,
  length (splice_chain g v chain).1 = length g.
Proof.
  unfold splice_chain. induction chain as [|x chain IH]; intros g v; simpl; [reflexivity|].
  rewrite IH. apply length_add_edge.
Qed.

(** One teleportation: [teleportation_distance] more vertices, one more
    invocation. *)
Lemma teleportation_grows hp m asg q asg' t :
  teleportation hp m asg q = Ok (asg', t) ->
  n_vertices asg' = (n_vertices asg + teleportation_distance hp)%nat
  /\ n_teleportations asg' = S (n_teleportations asg).
Proof.
  unfold teleportation. destruct (_ <? _)%N; [discriminate|].
  intros [= <- _]. unfold n_vertices. simpl.
  rewrite length_splice_chain, length_app, length_replicate. split; reflexivity.
Qed.

(** The degree check leaves the arena alone or teleports once. *)
Lemma endpoint_cases hp m asg q asg' t :
  endpoint hp m asg q = Ok (asg', t) ->
  asg' = asg
  \/ ((teleportation_threshold hp < degree asg (vertex_of asg q) + 1)%N
      /\ rebalancing_candidate hp asg (vertex_of asg q) = None
      /\ teleportation hp m asg q = Ok (asg', t)).
Proof.
  unfold endpoint. destruct (_ <? _)%N eqn:Hover.
  - destruct (rebalancing_candidate _ _ _) as [cand|].
    + intros [= <- _]. left. reflexivity.
    + intros Ht. right. apply N.ltb_lt in Hover. split; [exact Hover|].
      split; [reflexivity | exact Ht].
  - intros [= <- _]. left. reflexivity.
Qed.

Lemma mapM_getitem_length (m : gmap Z Z) qs : forall vs,
  mapM (Icm.getitem m) qs = Ok vs -> length vs = length qs.
Proof.
  induction qs as [|q qs IH]; intros vs; simpl.
  - intros [= <-]. reflexivity.
  - destruct (Icm.getitem m q) as [v|e]; simpl; [|discriminate].
    destruct (mapM (Icm.getitem m) qs) as [vs'|e]; simpl; [|discriminate].
    intros [= <-]. simpl. rewrite (IH vs' eq_refl). reflexivity.
Qed.

(** The normaliser turns supported operations into operations of the
    builder. *)
Lemma step_normalised st op st' :
  Forall normalised (Icm.icm_circuit st) -> supported op ->
  Icm.step Icm.default_gates_to_decompose st op = Ok st' ->
  Forall normalised (Icm.icm_circuit st').
Proof.
  intros Hst Hop. unfold Icm.step.
  destruct (bool_decide (gate_name op ∈ Icm.default_gates_to_decompose)) eqn:Hd.
  - intros [= <-].
    edestruct (decompose_loop (qubit_indices op)) as (_ & Hc & _);
      [|rewrite Hc]; [rewrite length_map; reflexivity|].
    apply Forall_app. split; [exact Hst|].
    apply Forall_forall. intros o Ho.
    apply elem_of_zip_with in Ho as (a & b & -> & _ & _).
    right. split; [|reflexivity]. apply (bool_decide_unpack _). vm_compute. exact I.
  - destruct (bool_decide (gate_name op = "RESET"%string)) eqn:Hr.
    + intros [= <-].
      edestruct (reset_loop (qubit_indices op)) as (_ & Hc & _);
        [|rewrite Hc]; [rewrite length_map; reflexivity|]. exact Hst.
    + destruct (mapM _ _) as [qs|e] eqn:E; simpl; [|discriminate].
      intros [= <-]. simpl. apply Forall_app. split; [exact Hst|].
      apply Forall_singleton. apply mapM_getitem_length in E.
      destruct Hop as [Hnorm|Hal].
      * unfold normalised in *. simpl. rewrite E. exact Hnorm.
      * unfold Icm.allocates in Hal. rewrite Hd, Hr in Hal. discriminate.
Qed.

Lemma endpoint_returns hp m asg q :
  (N.of_nat (n_vertices asg + teleportation_distance hp) <= m)%N ->
  exists asg' t,
    endpoint hp m asg q = Ok (asg', t)
    /\ (n_vertices asg' <= n_vertices asg + teleportation_distance hp)%nat.
Proof.
  intros Hm. unfold endpoint.
  destruct (_ <? _)%N; [destruct (rebalancing_candidate _ _ _)|];
    try (eexists _, _; split; [reflexivity | lia]).
  destruct (teleportation hp m asg q) as [[asg' t]|e] eqn:Ht.
  - exists asg', t. split; [reflexivity|].
    apply teleportation_grows in Ht as [Hv _]. lia.
  - exfalso. unfold teleportation in Ht.
    rewrite (proj2 (N.ltb_ge _ _)) in Ht by exact Hm. discriminate.
Qed.

Lemma build_step_returns hp m asg op :
  normalised op ->
  (N.of_nat (n_vertices asg + 2 * teleportation_distance hp) <= m)%N ->
  exists asg',
    build_step hp m asg op = Ok asg'
    /\ (n_vertices asg' <= n_vertices asg + 2 * teleportation_distance hp)%nat.
Proof.
  intros Hop Hm. unfold build_step.
  destruct Hop as [[Hname Hlen]|[Hname Hlen]];
    destruct (qubit_indices op) as [|a [|b [|x rest]]]; try discriminate.
  - rewrite bool_decide_eq_true_2 by exact Hname. exists asg. split; [reflexivity|lia].
  - rewrite bool_decide_eq_true_2 by exact Hname.
    destruct (endpoint_returns hp m asg a) as (asg1 & u & E1 & H1); [lia|].
    destruct (endpoint_returns hp m asg1 b) as (asg2 & w & E2 & H2); [lia|].
    rewrite E1. simpl. rewrite E2. simpl. eexists. split; [reflexivity|].
    unfold n_vertices in *. simpl. rewrite length_add_edge. lia.
Qed.

Lemma build_returns hp m ops : forall asg,
  Forall normalised ops ->
  (N.of_nat (n_vertices asg + 2 * teleportation_distance hp * length ops) <= m)%N ->
  exists asg', rfold (build_step hp m) asg ops = Ok asg'.
Proof.
  induction ops as [|op ops IH]; intros asg Hall Hm; simpl.
  - exists asg. reflexivity.
  - apply Forall_cons in Hall as [Hop Hall]. simpl in Hm.
    destruct (build_step_returns hp m asg op Hop) as (asg1 & E & Hgrow); [lia|].
    rewrite E. simpl. apply IH; [exact Hall | lia].
Qed.

(** [compile] returns a graph state for every well-formed circuit of
    supported operations, when [max_graph_size] leaves room for two
    teleportations per operation of the normalised stream. *)
Lemma compile_returns hp m c :
  wf_circuit c ->
  Forall supported (operations c) ->
  exists icm,
    Icm.run Icm.default_gates_to_decompose (Icm.init c) (operations c) = Ok icm
    /\ ((N.of_nat (Z.to_nat (Icm.icm_circuit_n_qubits icm + 1)
                   + 2 * teleportation_distance hp * length (Icm.icm_circuit icm)) <= m)%N ->
        exists asg, compile hp m c = Ok asg).
Proof.
  intros [Hn Hall] Hsup.
  destruct (run_reaches c Icm.default_gates_to_decompose (operations c) Hn Hall)
    as (icm & Hrun & _).
  exists icm. split; [exact Hrun|]. intros Hm.
  unfold compile. rewrite Hrun. simpl.
  rewrite (proj2 (N.ltb_ge _ _)) by lia.
  apply build_returns.
  - apply (rfold_invariant _ (fun st => Forall normalised (Icm.icm_circuit st))
                           (operations c)) with (s := Icm.init c) in Hrun.
    + exact Hrun.
    + intros st op st' Hin Hst. apply step_normalised; [exact Hst|].
      apply (proj1 (Forall_forall _ _) Hsup). exact Hin.
    + constructor.
  - unfold n_vertices. simpl. rewrite length_replicate. exact Hm.
Qed.

(** The parameter table of
    [test_teleportation_produces_correct_number_of_nodes_for_small_circuits]:
    circuit, threshold, distance, expected teleportations; the circuits are
    the stars, and [H(0)] followed by four T gates. *)
Example teleportation_test_table :
  map (fun '(c, threshold, distance) =>
         nodes_and_teleportations
           (compile (test_hyperparams threshold distance) default_max_graph_size c))
      [ (star 5, 4%N, 4%nat); (star 5, 3%N, 4%nat); (star 6, 4%N, 6%nat);
        (star 6, 4%N, 4%nat); (star 8, 4%N, 4%nat); (star 9, 4%N, 4%nat);
        (star 11, 4%N, 4%nat); (star 12, 4%N, 4%nat); (star 14, 4%N, 4%nat);
        (star 15, 4%N, 4%nat); (Circuit_ [H 0; T 0; T 0; T 0; T 0], 4%N, 4%nat) ]
  = map Some
      [ (5 + 4 * 0, 0); (5 + 4 * 1, 1); (6 + 6 * 1, 1);
        (6 + 4 * 1, 1); (8 + 4 * 1, 1); (9 + 4 * 2, 2);
        (11 + 4 * 2, 2); (12 + 4 * 3, 3); (14 + 4 * 3, 3);
        (15 + 4 * 4, 4); (1 + 4 + 4 * 0, 0) ]%nat.
Proof. vm_compute. reflexivity. Qed.

(** C3, as the test table has it: the star with the four couplings
    CNOT(0,1) ... CNOT(0,4) is compiled without any teleportation at
    threshold 4 (vertex 0 reaches degree 4, which does not exceed the
    threshold) and at threshold 999; it takes the fifth coupling CNOT(0,5)
    to perform exactly one teleportation at threshold 4 and distance 4, and
    none at threshold 999. *)
Theorem C3_teleportation_needs_a_fifth_coupling :
  operations (star 5) = [H 0; CNOT 0 1; CNOT 0 2; CNOT 0 3; CNOT 0 4]
  /\ nodes_and_teleportations
       (compile (test_hyperparams 4 4) default_max_graph_size (star 5))
     = Some (5%nat, 0%nat)
  /\ nodes_and_teleportations
       (compile (test_hyperparams 999 4) default_max_graph_size (star 5))
     = Some (5%nat, 0%nat)
  /\ operations (star 6) = [H 0; CNOT 0 1; CNOT 0 2; CNOT 0 3; CNOT 0 4; CNOT 0 5]
  /\ nodes_and_teleportations
       (compile (test_hyperparams 4 4) default_max_graph_size (star 6))
     = Some (10%nat, 1%nat)
  /\ nodes_and_teleportations
       (compile (test_hyperparams 999 4) default_max_graph_size (star 6))
     = Some (6%nat, 0%nat).
Proof. repeat split; vm_compute; reflexivity. Qed.

(** C3 as stated fails: at threshold 4 and distance 4 the circuit H(0),
    CNOT(0,1), CNOT(0,2), CNOT(0,3), CNOT(0,4) is compiled with no
    teleportation, and vertex 0 ends with degree 4, not 5. *)
Lemma C3_four_couplings_do_not_teleport :
  match compile (test_hyperparams 4 4) default_max_graph_size
              (Circuit_ [H 0; CNOT 0 1; CNOT 0 2; CNOT 0 3; CNOT 0 4]) with
  | Ok asg => n_teleportations asg = 0%nat /\ degree asg 0 = 4%N
              /\ n_teleportations asg <> 1%nat
  | Raise _ => False
  end.
Proof. vm_compute. repeat split; discriminate. Qed.

End BuilderClaims.

(** ** Further properties of the ICM loop *)

Section IcmMore.
Import Icm.

Lemma width_nonneg ops : 0 <= width ops.
Proof.
  unfold width. induction (concat (map qubit_indices ops)) as [|q l IH]; simpl; lia.
Qed.

Lemma width_above ops op q :
  op ∈ ops -> q ∈ qubit_indices op -> q < width ops.
Proof.
  intros Hop Hq. unfold width.
  assert (Hin : q ∈ concat (map qubit_indices ops)).
  { apply list_elem_of_In, in_concat. exists (qubit_indices op).
    split; [apply in_map, list_elem_of_In, Hop | apply list_elem_of_In, Hq]. }
  induction (concat (map qubit_indices ops)) as [|q' l IH]; [inversion Hin|].
  simpl. apply elem_of_cons in Hin as [->|Hin]; [lia|]. specialize (IH Hin). lia.
Qed.

Lemma width_below ops bound :
  0 <= bound ->
  (forall op q, op ∈ ops -> q ∈ qubit_indices op -> q < bound) ->
  width ops <= bound.
Proof.
  intros Hb Hall. unfold width.
  assert (Hin : forall q, q ∈ concat (map qubit_indices ops) -> q < bound).
  { intros q Hq. apply list_elem_of_In, in_concat in Hq as (l & Hl & Hq).
    apply in_map_iff in Hl as (op & <- & Hop).
    apply (Hall op q); apply list_elem_of_In; assumption. }
  induction (concat (map qubit_indices ops)) as [|q' l IH]; simpl; [lia|].
  assert (q' < bound) by (apply Hin; left).
  assert (foldr Z.max 0 (map (fun q => q + 1) l) <= bound)
    by (apply IH; intros q Hq; apply Hin; right; exact Hq).
  lia.
Qed.

(** A circuit built from operations on non-negative indices is well formed. *)
Lemma wf_Circuit_ ops :
  (forall op q, op ∈ ops -> q ∈ qubit_indices op -> 0 <= q) ->
  wf_circuit (Circuit_ ops).
Proof.
  intros Hpos. split; [apply width_nonneg|]. simpl.
  apply Forall_forall. intros op Hop. apply Forall_forall. intros q Hq.
  split; [apply (Hpos op q Hop Hq) | apply (width_above ops op q Hop Hq)].
Qed.

(** On operations that allocate nothing, and whose qubits the dictionary
    maps to themselves, the loop copies its input. *)
Lemma run_copies d (m : gmap Z Z) n ops : forall acc,
  Forall (fun op => Forall (fun q => m !! q = Some q) (qubit_indices op)) ops ->
  Forall (fun op => allocates d op = false) ops ->
  run d (mkState m acc n) ops = Ok (mkState m (acc ++ ops) n).
Proof.
  unfold run. induction ops as [|op ops IH]; intros acc Hid Hno.
  - simpl. rewrite app_nil_r. reflexivity.
  - apply Forall_cons in Hid as [Hop Hid]. apply Forall_cons in Hno as [Hal Hno].
    pose proof (step_closed_form d (mkState m acc n) op id Hop) as Hstep.
    cbn zeta in Hstep. unfold allocates in Hal. apply orb_false_elim in Hal as [Hd Hr].
    rewrite Hd, Hr in Hstep. cbn [rfold]. rewrite Hstep. simpl.
    rewrite map_id. destruct op as [name qs]. simpl.
    rewrite IH by assumption. rewrite <- app_assoc. reflexivity.
Qed.

(** Without "CNOT" among the gates to decompose, no emitted operation is
    one the loop would allocate for. *)
Lemma step_emits_plain d st op st' :
  "CNOT"%string ∉ d ->
  Forall (fun o => allocates d o = false) (icm_circuit st) ->
  step d st op = Ok st' ->
  Forall (fun o => allocates d o = false) (icm_circuit st').
Proof.
  intros Hcnot Hst. unfold step.
  destruct (bool_decide (gate_name op ∈ d)) eqn:Hd.
  - intros [= <-].
    edestruct (decompose_loop (qubit_indices op)) as (_ & Hc & _);
      [|rewrite Hc]; [rewrite length_map; reflexivity|].
    apply Forall_app. split; [exact Hst|].
    apply Forall_forall. intros o Ho.
    apply elem_of_zip_with in Ho as (a & b & -> & _ & _).
    unfold allocates. simpl. rewrite bool_decide_eq_false_2 by exact Hcnot.
    reflexivity.
  - destruct (bool_decide (gate_name op = "RESET"%string)) eqn:Hr.
    + intros [= <-].
      edestruct (reset_loop (qubit_indices op)) as (_ & Hc & _);
        [|rewrite Hc]; [rewrite length_map; reflexivity|]. exact Hst.
    + destruct (mapM _ _) as [qs|e]; simpl; [|discriminate].
      intros [= <-]. simpl. apply Forall_app. split; [exact Hst|].
      apply Forall_singleton. unfold allocates. simpl. rewrite Hd, Hr. reflexivity.
Qed.

(** The loop returns a circuit without allocating operations as it is. *)
Lemma get_icm_copies c d :
  wf_circuit c ->
  Forall (fun op => allocates d op = false) (operations c) ->
  get_icm c d = Ok (Circuit_ (operations c)).
Proof.
  intros [Hn Hall] Hno. unfold get_icm, init.
  rewrite (run_copies d _ _ (operations c) []); [reflexivity| |exact Hno].
  eapply Forall_impl; [exact Hall|]. intros op Hop.
  eapply Forall_impl; [exact Hop|]. intros q Hq.
  apply (init_lookup c q Hq).
Qed.

(** X1: a circuit that has neither a gate to decompose nor a reset comes
    back from [get_icm] with the same operations in the same order; only
    its qubit count is recomputed from the indices in use, so that declared
    qubits without an operation are dropped. *)
Theorem X1_get_icm_keeps_a_circuit_without_allocations c d :
  wf_circuit c ->
  Forall (fun op => allocates d op = false) (operations c) ->
  exists out,
    get_icm c d = Ok out
    /\ operations out = operations c
    /\ n_qubits out = width (operations c)
    /\ n_qubits out <= n_qubits c.
Proof.
  intros Hwf Hno. exists (Circuit_ (operations c)).
  split; [apply get_icm_copies; assumption|]. split; [reflexivity|].
  split; [reflexivity|]. simpl. destruct Hwf as [Hn Hall].
  apply width_below; [exact Hn|]. intros op q Hop Hq.
  apply (proj1 (Forall_forall _ _) Hall) in Hop.
  apply (proj1 (Forall_forall _ _) Hop) in Hq. lia.
Qed.

(** The hypotheses of X1 hold on a circuit of three declared qubits that
    only uses the first two. *)
Lemma X1_witness :
  wf_circuit (mkCircuit [H 0; CNOT 0 1] 3)
  /\ exists out,
       get_icm (mkCircuit [H 0; CNOT 0 1] 3) default_gates_to_decompose = Ok out
       /\ n_qubits out <= 3.
Proof.
  assert (Hwf : wf_circuit (mkCircuit [H 0; CNOT 0 1] 3))
    by (apply (bool_decide_unpack _); vm_compute; exact I).
  split; [exact Hwf|].
  destruct (X1_get_icm_keeps_a_circuit_without_allocations
              (mkCircuit [H 0; CNOT 0 1] 3) default_gates_to_decompose Hwf)
    as (out & Hout & _ & _ & Hle).
  - repeat constructor.
  - exists out. split; [exact Hout | exact Hle].
Defined.

(** X2: the output of [get_icm] is a fixed point of [get_icm]: when CNOT is
    not itself a gate to decompose, normalising an already normalised
    circuit returns it unchanged. *)
Theorem X2_get_icm_is_idempotent c d out :
  wf_circuit c ->
  "CNOT"%string ∉ d ->
  get_icm c d = Ok out ->
  get_icm out d = Ok out.
Proof.
  intros Hwf Hcnot Hout. pose proof Hwf as [Hn Hall].
  destruct (run_reaches c d (operations c) Hn Hall) as (st & Hrun & _ & _ & _ & Hicm).
  unfold get_icm in Hout. rewrite Hrun in Hout. simpl in Hout. injection Hout as <-.
  apply (get_icm_copies (Circuit_ (icm_circuit st)) d).
  - apply wf_Circuit_. intros op q Hop Hq. apply (Hicm op q Hop Hq).
  - simpl. apply (rfold_invariant _ (fun s => Forall (fun o => allocates d o = false)
                                                     (icm_circuit s))
                                   (operations c)) with (s := init c) in Hrun.
    + exact Hrun.
    + intros s op s' _ Hs. apply step_emits_plain; assumption.
    + constructor.
Qed.

(** The hypotheses of X2 hold on [H(0); T(0); H(0)]. *)
Lemma X2_witness :
  wf_circuit (Circuit_ [H 0; T 0; H 0])
  /\ ("CNOT"%string ∉ default_gates_to_decompose)
  /\ get_icm (Circuit_ [H 0; CNOT 0 1; H 1]) default_gates_to_decompose
     = Ok (Circuit_ [H 0; CNOT 0 1; H 1]).
Proof.
  assert (Hwf : wf_circuit (Circuit_ [H 0; T 0; H 0]))
    by (apply (bool_decide_unpack _); vm_compute; exact I).
  assert (Hcnot : "CNOT"%string ∉ default_gates_to_decompose)
    by (apply (bool_decide_unpack _); vm_compute; exact I).
  split; [exact Hwf|]. split; [exact Hcnot|].
  apply (X2_get_icm_is_idempotent (Circuit_ [H 0; T 0; H 0])
           default_gates_to_decompose _ Hwf Hcnot).
  vm_compute. reflexivity.
Defined.

Lemma lookup_fresh_indices k : forall next i a,
  fresh_indices next k !! i = Some a -> a = next + Z.of_nat i.
Proof.
  induction k as [|k IH]; intros next i a; simpl; [discriminate|].
  destruct i as [|i]; simpl.
  - intros [= <-]. lia.
  - intros Hi. apply IH in Hi. lia.
Qed.

(** An allocated index belongs to one qubit only. *)
Lemma allocation_log_snd_inj d ops : forall next q1 q2 a,
  (q1, a) ∈ allocation_log d next ops -> (q2, a) ∈ allocation_log d next ops ->
  q1 = q2.
Proof.
  induction ops as [|op ops IH]; intros next q1 q2 a H1 H2; simpl in H1, H2.
  - inversion H1.
  - destruct (allocates d op); [|apply (IH _ _ _ _ H1 H2)].
    apply elem_of_app in H1 as [H1|H1]; apply elem_of_app in H2 as [H2|H2].
    + apply list_elem_of_lookup in H1 as [i1 H1]. apply list_elem_of_lookup in H2 as [i2 H2].
      apply lookup_zip_with_Some in H1 as (x1 & a1 & [= -> ->] & Hq1 & Ha1).
      apply lookup_zip_with_Some in H2 as (x2 & a2 & [= -> ->] & Hq2 & Ha2).
      apply lookup_fresh_indices in Ha1. apply lookup_fresh_indices in Ha2.
      assert (i1 = i2) by lia. subst i2. congruence.
    + apply elem_of_zip_with in H1 as (x1 & a1 & [= -> ->] & _ & Ha1).
      apply elem_of_fresh_indices in Ha1.
      apply elem_of_allocation_log in H2 as [_ Hb]. simpl in Hb. lia.
    + apply elem_of_zip_with in H2 as (x2 & a2 & [= -> ->] & _ & Ha2).
      apply elem_of_fresh_indices in Ha2.
      apply elem_of_allocation_log in H1 as [_ Hb]. simpl in Hb. lia.
    + apply (IH _ _ _ _ H1 H2).
Qed.

(** X3: the relabelling never merges two wires: at every point of the loop
    the dictionary [compiled_qubit_index] sends distinct qubits of the
    circuit to distinct indices. *)
Theorem X3_current_indices_are_distinct c d pre post :
  wf_circuit c ->
  operations c = pre ++ post ->
  exists st,
    run d (init c) pre = Ok st
    /\ forall q1 q2 v,
         0 <= q1 < n_qubits c -> 0 <= q2 < n_qubits c ->
         compiled_qubit_index st !! q1 = Some v ->
         compiled_qubit_index st !! q2 = Some v ->
         q1 = q2.
Proof.
  intros [Hn Hall] Hops. rewrite Hops in Hall. apply Forall_app in Hall as [Hpre _].
  destruct (run_reaches c d pre Hn Hpre) as (st & Hrun & _ & Hdict & _).
  exists st. split; [exact Hrun|].
  intros q1 q2 v Hq1 Hq2 H1 H2.
  rewrite (Hdict q1 Hq1) in H1. rewrite (Hdict q2 Hq2) in H2.
  injection H1 as H1. injection H2 as H2.
  set (log := allocation_log d (n_qubits c) pre) in *.
  destruct (most_recent_cases log q1) as [[E1 _]|In1];
    destruct (most_recent_cases log q2) as [[E2 _]|In2].
  - congruence.
  - apply elem_of_allocation_log in In2 as [_ Hb]. simpl in Hb. lia.
  - apply elem_of_allocation_log in In1 as [_ Hb]. simpl in Hb. lia.
  - rewrite H1 in In1. rewrite H2 in In2.
    apply (allocation_log_snd_inj d pre (n_qubits c) q1 q2 v In1 In2).
Qed.

(** The hypotheses of X3 hold on [T(0); T(1)] after both gates. *)
Lemma X3_witness :
  wf_circuit (Circuit_ [T 0; T 1])
  /\ exists st,
       run default_gates_to_decompose (init (Circuit_ [T 0; T 1])) [T 0; T 1] = Ok st
       /\ compiled_qubit_index st !! 0 <> compiled_qubit_index st !! 1.
Proof.
  assert (Hwf : wf_circuit (Circuit_ [T 0; T 1]))
    by (apply (bool_decide_unpack _); vm_compute; exact I).
  split; [exact Hwf|].
  destruct (X3_current_indices_are_distinct
              (Circuit_ [T 0; T 1]) default_gates_to_decompose [T 0; T 1] []
              Hwf eq_refl) as (st & Hrun & Hinj).
  exists st. split; [exact Hrun|]. intros Heq.
  destruct (compiled_qubit_index st !! 0) as [v|] eqn:E0.
  - assert (H01 : 0 = 1); [|discriminate H01].
    change (n_qubits (Circuit_ [T 0; T 1])) with 2 in Hinj.
    apply (Hinj 0 1 v); [lia | lia | exact E0 | symmetry; exact Heq].
  - vm_compute in Hrun. injection Hrun as <-. vm_compute in E0. discriminate.
Defined.



Lemma gate_names_of_cnots (cqs fresh : list Z) :
  length cqs = length fresh ->
  map gate_name (zip_with CNOT cqs fresh) = replicate (length cqs) "CNOT"%string.
Proof.
  revert fresh. induction cqs as [|a cqs IH]; intros [|b fresh] Hlen;
    simpl in *; try discriminate; [reflexivity|].
  f_equal. apply IH. lia.
Qed.

(** The gate names of the operations emitted on a prefix. *)
Lemma run_gate_names c d pre :
  0 <= n_qubits c ->
  Forall (fun op => Forall (fun q => 0 <= q < n_qubits c) (qubit_indices op)) pre ->
  exists st,
    run d (init c) pre = Ok st
    /\ map gate_name (icm_circuit st) = flat_map (emitted_gates d) pre.
Proof.
  intros Hn. induction pre as [|op pre IH] using rev_ind; intros Hwf.
  - exists (init c). split; reflexivity.
  - apply Forall_app in Hwf as [Hpre Hop]. apply Forall_inv in Hop.
    destruct (IH Hpre) as (st & Hrun & Hnames). clear IH.
    destruct (run_reaches c d pre Hn Hpre) as (st0 & Hrun0 & _ & Hdict & _).
    rewrite Hrun in Hrun0. injection Hrun0 as <-.
    assert (Hcur : Forall (fun q => compiled_qubit_index st !! q
                     = Some (most_recent (allocation_log d (n_qubits c) pre) q))
                          (qubit_indices op)).
    { eapply Forall_impl; [exact Hop|]. intros q Hq. apply Hdict. exact Hq. }
    pose proof (step_closed_form d st op _ Hcur) as Hstep. cbn zeta in Hstep.
    unfold run in *. rewrite rfold_app, Hrun. simpl. rewrite Hstep.
    eexists. split; [reflexivity|].
    rewrite flat_map_app. simpl. rewrite app_nil_r. unfold emitted_gates.
    destruct (bool_decide (gate_name op ∈ d)); simpl;
      [|destruct (bool_decide (gate_name op = "RESET"%string)); simpl].
    + rewrite map_app, Hnames, gate_names_of_cnots,
        length_map; [reflexivity|].
      rewrite length_map, length_fresh_indices. reflexivity.
    + rewrite Hnames, app_nil_r. reflexivity.
    + rewrite map_app, Hnames. reflexivity.
Qed.

End IcmMore.

(** ** Further properties of the tableau checks *)

Section TableauMore.
Import Tableau.

Lemma foldl_xorb (a : bool) l : foldl xorb a l = xorb a (foldr xorb false l).
Proof.
  revert a. induction l as [|b l IH]; intros a; simpl.
  - destruct a; reflexivity.
  - rewrite IH. destruct a, b, (foldr xorb false l); reflexivity.
Qed.

Lemma bool_dot_dot x y :
  length x = length y -> (0 < length x)%nat -> _bool_dot x y = Ok (dot x y).
Proof.
  intros Hlen Hpos. unfold _bool_dot, logical_and, dot.
  rewrite bool_decide_eq_true_2 by exact Hlen. simpl.
  destruct x as [|a x]; [simpl in Hpos; lia|].
  destruct y as [|b y]; [discriminate|]. simpl.
  rewrite foldl_xorb. reflexivity.
Qed.

Lemma dot_comm x : forall y, dot x y = dot y x.
Proof.
  unfold dot. induction x as [|a x IH]; intros [|b y]; simpl; try reflexivity.
  rewrite IH. destruct a, b; reflexivity.
Qed.

Lemma dot_xor_l x : forall x' y,
  length x = length x' ->
  dot (zip_with xorb x x') y = xorb (dot x y) (dot x' y).
Proof.
  unfold dot. induction x as [|a x IH]; intros [|b x'] [|c y] Hlen;
    simpl in *; try discriminate; try reflexivity.
  rewrite IH by lia.
  destruct a, b, c, (foldr xorb false (zip_with andb x y)),
    (foldr xorb false (zip_with andb x' y)); reflexivity.
Qed.

Lemma half_length (a : list bool) m : length a = (2 * m)%nat -> (length a / 2)%nat = m.
Proof.
  intros ->. replace (2 * m)%nat with (m * 2)%nat by lia. apply Nat.div_mul. lia.
Qed.

(** [commutes] on two rows of [2 m] entries is the negated symplectic
    form. *)
Lemma commutes_symplectic m a b :
  (0 < m)%nat -> length a = (2 * m)%nat -> length b = (2 * m)%nat ->
  commutes a b = Ok (negb (symplectic m a b)).
Proof.
  intros Hm Ha Hb. unfold commutes, symplectic. rewrite (half_length a m Ha).
  rewrite !bool_dot_dot; [reflexivity|..];
    rewrite ?length_take, ?length_drop; lia.
Qed.

(** X6: on rows of the same even, non-zero length, [commutes] returns
    without raising, its result does not depend on the order of its
    arguments, and every row commutes with itself. *)
Theorem X6_commutes_is_symmetric_and_reflexive m a b :
  (0 < m)%nat -> length a = (2 * m)%nat -> length b = (2 * m)%nat ->
  exists r,
    commutes a b = Ok r /\ commutes b a = Ok r /\ commutes a a = Ok true.
Proof.
  intros Hm Ha Hb. exists (negb (symplectic m a b)).
  rewrite !(commutes_symplectic m) by assumption. unfold symplectic.
  split; [reflexivity|]. split.
  - rewrite (dot_comm (take m a)), (dot_comm (drop m a)).
    destruct (dot (drop m b) (take m a)), (dot (take m b) (drop m a)); reflexivity.
  - rewrite (dot_comm (drop m a)). destruct (dot (take m a) (drop m a)); reflexivity.
Qed.

(** The hypotheses of X6 hold on the one-qubit stabilizers X and Z. *)
Lemma X6_witness :
  exists r,
    commutes [true; false] [false; true] = Ok r
    /\ commutes [false; true] [true; false] = Ok r
    /\ commutes [true; false] [true; false] = Ok true.
Proof.
  apply (X6_commutes_is_symmetric_and_reflexive 1 [true; false] [false; true]);
    [lia | reflexivity | reflexivity].
Defined.

(** X7: [commutes] is additive in its first argument: the entrywise sum of
    two rows commutes with a third row exactly when both rows, or neither,
    commute with it. In particular the product of two stabilizers that
    commute with a row commutes with it. *)
Theorem X7_commutes_of_a_product m a b t :
  (0 < m)%nat ->
  length a = (2 * m)%nat -> length b = (2 * m)%nat -> length t = (2 * m)%nat ->
  exists ca cb,
    commutes a t = Ok ca
    /\ commutes b t = Ok cb
    /\ commutes (zip_with xorb a b) t = Ok (Bool.eqb ca cb).
Proof.
  intros Hm Ha Hb Ht.
  assert (Hab : length (zip_with xorb a b) = (2 * m)%nat)
    by (rewrite length_zip_with; lia).
  rewrite !(commutes_symplectic m) by assumption.
  eexists _, _. split; [reflexivity|]. split; [reflexivity|]. f_equal.
  unfold symplectic.
  rewrite zip_with_take, zip_with_drop.
  rewrite !dot_xor_l by (rewrite ?length_take, ?length_drop; lia).
  destruct (dot (take m a) (drop m t)), (dot (take m b) (drop m t)),
    (dot (drop m a) (take m t)), (dot (drop m b) (take m t)); reflexivity.
Qed.

(** The hypotheses of X7 hold on XI, IX and ZZ: each of the first two
    anticommutes with ZZ, their product XX commutes with it. *)
Lemma X7_witness :
  commutes (zip_with xorb [true; false; false; false] [false; true; false; false])
           [false; false; true; true] = Ok true.
Proof.
  destruct (X7_commutes_of_a_product 2 [true; false; false; false]
              [false; true; false; false] [false; false; true; true])
    as (ca & cb & Ha & Hb & Hab); [lia | reflexivity..|].
  vm_compute in Ha. vm_compute in Hb. injection Ha as <-. injection Hb as <-.
  exact Hab.
Defined.

Lemma elem_of_visited_pairs n i j :
  (i, j) ∈ visited_pairs n <-> (i <= j < n)%nat.
Proof.
  unfold visited_pairs. rewrite list_elem_of_bind. split.
  - intros (i' & Hj & Hi). apply list_elem_of_fmap in Hj as (j' & [= -> ->] & Hj).
    apply elem_of_seq in Hi. apply elem_of_seq in Hj. lia.
  - intros Hij. exists i. split.
    + apply list_elem_of_fmap. exists j. split; [reflexivity|]. apply elem_of_seq. lia.
    + apply elem_of_seq. lia.
Qed.

(** The double loop over well-formed rows returns whether all the pairs it
    visits commute. *)
Lemma all_commute_spec m (t1 t2 : list (list bool)) ps :
  (0 < m)%nat ->
  Forall (fun r => length r = (2 * m)%nat) t1 ->
  Forall (fun r => length r = (2 * m)%nat) t2 ->
  Forall (fun p : nat * nat => (p.1 < length t1)%nat /\ (p.2 < length t2)%nat) ps ->
  exists b,
    all_commute t1 t2 ps = Ok b
    /\ (b = true <->
        forall i j r1 r2, (i, j) ∈ ps -> t1 !! i = Some r1 -> t2 !! j = Some r2 ->
                          commutes r1 r2 = Ok true).
Proof.
  intros Hm H1 H2. induction ps as [|[i j] ps IH]; intros Hps.
  - exists true. split; [reflexivity|]. split; [|reflexivity].
    intros _ i j r1 r2 Hin. inversion Hin.
  - apply Forall_cons in Hps as [[Hi Hj] Hps]. simpl in Hi, Hj.
    destruct (lookup_lt_is_Some_2 t1 i Hi) as [r1 Hr1].
    destruct (lookup_lt_is_Some_2 t2 j Hj) as [r2 Hr2].
    assert (Hl1 : length r1 = (2 * m)%nat)
      by (apply (proj1 (Forall_forall _ _) H1), list_elem_of_lookup; eauto).
    assert (Hl2 : length r2 = (2 * m)%nat)
      by (apply (proj1 (Forall_forall _ _) H2), list_elem_of_lookup; eauto).
    simpl. unfold row. rewrite Hr1, Hr2. simpl.
    rewrite (commutes_symplectic m r1 r2 Hm Hl1 Hl2). simpl.
    destruct (symplectic m r1 r2) eqn:Hs; simpl.
    + exists false. split; [reflexivity|]. split; [discriminate|].
      intros Hall. specialize (Hall i j r1 r2 (list_elem_of_here _ _) Hr1 Hr2).
      rewrite (commutes_symplectic m r1 r2 Hm Hl1 Hl2), Hs in Hall. discriminate.
    + destruct (IH Hps) as (b & Hb & Hiff). exists b. split; [exact Hb|].
      rewrite Hiff. split.
      * intros Hall i' j' r1' r2' Hin Hr1' Hr2'.
        apply elem_of_cons in Hin as [[= -> ->]|Hin].
        -- rewrite Hr1 in Hr1'. rewrite Hr2 in Hr2'.
           injection Hr1' as <-. injection Hr2' as <-.
           rewrite (commutes_symplectic m r1 r2 Hm Hl1 Hl2), Hs. reflexivity.
        -- apply (Hall i' j' r1' r2' Hin Hr1' Hr2').
      * intros Hall i' j' r1' r2' Hin. apply Hall. right. exact Hin.
Qed.

(** X8: what [check_tableau_entries_commute] decides. On tableaus whose
    rows have the same even, non-zero length it returns, without raising,
    whether row [i] of the first tableau commutes with row [j] of the
    second for all [i <= j] below HALF the number of rows of the first
    tableau; the other pairs of rows, and all rows from the middle on, play
    no part in the answer. *)
Theorem X8_check_visits_the_upper_pairs_of_the_first_half m t1 t2 :
  (0 < m)%nat ->
  Forall (fun r => length r = (2 * m)%nat) t1 ->
  Forall (fun r => length r = (2 * m)%nat) t2 ->
  (length t1 / 2 <= length t2)%nat ->
  exists b,
    check_tableau_entries_commute t1 t2 = Ok b
    /\ (b = true <->
        forall i j r1 r2,
          (i <= j < length t1 / 2)%nat ->
          t1 !! i = Some r1 -> t2 !! j = Some r2 ->
          commutes r1 r2 = Ok true).
Proof.
  intros Hm H1 H2 Hlen. unfold check_tableau_entries_commute.
  destruct (all_commute_spec m t1 t2 (visited_pairs (length t1 / 2)) Hm H1 H2)
    as (b & Hb & Hiff).
  - apply Forall_forall. intros [i j] Hin. apply elem_of_visited_pairs in Hin. simpl.
    assert (length t1 / 2 <= length t1)%nat by (apply Nat.Div0.div_le_upper_bound; lia).
    lia.
  - exists b. split; [exact Hb|]. rewrite Hiff. split.
    + intros Hall i j r1 r2 Hij. apply Hall. apply elem_of_visited_pairs. exact Hij.
    + intros Hall i j r1 r2 Hin. apply Hall. apply elem_of_visited_pairs. exact Hin.
Qed.

(** The hypotheses of X8 hold on two two-qubit tableaus whose second rows
    anticommute with everything: the check only looks at the pair of
    first rows and answers [True]. *)
Lemma X8_witness :
  check_tableau_entries_commute
    [[true; true; false; false]; [false; false; true; false]]
    [[true; true; false; false]; [true; false; false; false]] = Ok true.
Proof.
  destruct (X8_check_visits_the_upper_pairs_of_the_first_half 2
              [[true; true; false; false]; [false; false; true; false]]
              [[true; true; false; false]; [true; false; false; false]])
    as (b & Hb & _); [lia | repeat constructor | repeat constructor | simpl; lia |].
  rewrite Hb. vm_compute in Hb. symmetry. exact Hb.
Defined.

End TableauMore.

(** ** The graph-state tableau *)

Section GraphTableauFacts.
Import GraphTableau.

(** A loop over a nested list is a loop over its flattening. *)
Lemma rfold_bind_ext {S A B : Type} (f : S -> B -> result S) (g : A -> list B)
  (h : S -> A -> result S) :
  (forall s x, h s x = rfold f s (g x)) ->
  forall l s, rfold h s l = rfold f s (l ≫= g).
Proof.
  intros Hh. induction l as [|x l IH]; intros s; [reflexivity|].
  change ((x :: l) ≫= g) with (g x ++ (l ≫= g)).
  rewrite rfold_app. simpl. rewrite Hh.
  destruct (rfold f s (g x)) as [s'|e]; simpl; [apply IH | reflexivity].
Qed.

Lemma all_zs_writes vertices :
  all_zs vertices
  = rfold (fun m (p : nat * nat) => setitem m p.1 p.2)
          (zeros (length vertices)) (writes vertices).
Proof.
  unfold all_zs, writes. apply rfold_bind_ext. intros m iv.
  apply rfold_bind_ext. intros m' nb. simpl.
  destruct (setitem m' nb iv.1) as [m1|e]; simpl; [|reflexivity].
  destruct (setitem m1 iv.1 nb); reflexivity.
Qed.

Lemma square_zeros n : square n (zeros n).
Proof.
  unfold square, zeros. rewrite length_replicate. split; [reflexivity|].
  apply Forall_replicate. apply length_replicate.
Qed.

Lemma entry_zeros n a b : entry (zeros n) a b = false.
Proof.
  unfold entry, zeros. destruct (replicate n (replicate n false) !! a) as [r|] eqn:Hr;
    simpl; [|reflexivity].
  apply lookup_replicate in Hr as [-> _].
  destruct (replicate n false !! b) as [x|] eqn:Hx; simpl; [|reflexivity].
  apply lookup_replicate in Hx as [-> _]. reflexivity.
Qed.

Lemma setitem_ok n m i j :
  square n m -> (i < n)%nat -> (j < n)%nat ->
  exists m',
    setitem m i j = Ok m'
    /\ square n m'
    /\ forall a b, entry m' a b
                   = entry m a b || (bool_decide (a = i) && bool_decide (b = j)).
Proof.
  intros [Hlen Hrows] Hi Hj. unfold setitem.
  destruct (lookup_lt_is_Some_2 m i) as [r Hr]; [lia|]. rewrite Hr.
  assert (Hlr : length r = n)
    by (apply (proj1 (Forall_forall _ _) Hrows), list_elem_of_lookup; eauto).
  rewrite bool_decide_eq_true_2 by lia.
  eexists. split; [reflexivity|]. split.
  - split; [rewrite length_insert; exact Hlen|].
    apply Forall_insert; [exact Hrows|]. rewrite length_insert. exact Hlr.
  - intros a b. unfold entry. case_bool_decide as Ha; simpl.
    + subst a. rewrite list_lookup_insert_eq by lia. rewrite Hr. simpl.
      case_bool_decide as Hb; simpl.
      * subst b. rewrite list_lookup_insert_eq by lia. simpl.
        rewrite orb_true_r. reflexivity.
      * rewrite list_lookup_insert_ne by congruence. rewrite orb_false_r. reflexivity.
    + rewrite list_lookup_insert_ne by congruence. rewrite orb_false_r. reflexivity.
Qed.

Lemma setitem_inv n m i j m' :
  square n m -> setitem m i j = Ok m' -> (i < n)%nat /\ (j < n)%nat.
Proof.
  intros [Hlen Hrows]. unfold setitem.
  destruct (m !! i) as [r|] eqn:Hr; [|discriminate].
  case_bool_decide as Hj; [|discriminate]. intros _.
  assert (Hlr : length r = n)
    by (apply (proj1 (Forall_forall _ _) Hrows), list_elem_of_lookup; eauto).
  apply lookup_lt_Some in Hr. lia.
Qed.

Lemma setitem_raises m i j e : setitem m i j = Raise e -> e = IndexError.
Proof.
  unfold setitem. destruct (m !! i); [case_bool_decide|]; congruence.
Qed.

(** A series of in-range writes into a square matrix. *)
Lemma rfold_setitem_ok n ps : forall m,
  square n m ->
  Forall (fun p : nat * nat => (p.1 < n)%nat /\ (p.2 < n)%nat) ps ->
  exists m',
    rfold (fun m (p : nat * nat) => setitem m p.1 p.2) m ps = Ok m'
    /\ square n m'
    /\ forall a b, entry m' a b = entry m a b || bool_decide ((a, b) ∈ ps).
Proof.
  induction ps as [|[i j] ps IH]; intros m Hsq Hps.
  - exists m. split; [reflexivity|]. split; [exact Hsq|]. intros a b.
    rewrite bool_decide_eq_false_2 by (intros Hin; inversion Hin).
    rewrite orb_false_r. reflexivity.
  - apply Forall_cons in Hps as [[Hi Hj] Hps]. simpl in Hi, Hj.
    destruct (setitem_ok n m i j Hsq Hi Hj) as (m1 & Hset & Hsq1 & Hent1).
    destruct (IH m1 Hsq1 Hps) as (m' & Hrun & Hsq' & Hent').
    exists m'. simpl. rewrite Hset. simpl. split; [exact Hrun|]. split; [exact Hsq'|].
    intros a b. rewrite Hent', Hent1, <- orb_assoc. f_equal.
    apply eq_true_iff_eq. rewrite orb_true_iff, andb_true_iff, !bool_decide_eq_true.
    rewrite elem_of_cons. split.
    + intros [[-> ->]|Hin]; [left; reflexivity | right; exact Hin].
    + intros [[= -> ->]|Hin]; [left; split; reflexivity | right; exact Hin].
Qed.

Lemma rfold_setitem_inv n ps : forall m m',
  square n m ->
  rfold (fun m (p : nat * nat) => setitem m p.1 p.2) m ps = Ok m' ->
  Forall (fun p : nat * nat => (p.1 < n)%nat /\ (p.2 < n)%nat) ps.
Proof.
  induction ps as [|[i j] ps IH]; intros m m' Hsq Hrun; [constructor|].
  simpl in Hrun. destruct (setitem m i j) as [m1|e] eqn:Hset; simpl in Hrun; [|discriminate].
  pose proof (setitem_inv n m i j m1 Hsq Hset) as [Hi Hj].
  destruct (setitem_ok n m i j Hsq Hi Hj) as (m1' & Hset' & Hsq1 & _).
  rewrite Hset in Hset'. injection Hset' as <-.
  constructor; [split; assumption|]. apply (IH m1 m' Hsq1 Hrun).
Qed.

Lemma rfold_setitem_raises ps : forall m e,
  rfold (fun m (p : nat * nat) => setitem m p.1 p.2) m ps = Raise e -> e = IndexError.
Proof.
  induction ps as [|[i j] ps IH]; intros m e; simpl; [discriminate|].
  destruct (setitem m i j) as [m1|e'] eqn:Hset; simpl.
  - apply IH.
  - intros [= <-]. apply (setitem_raises m i j e' Hset).
Qed.

Lemma elem_of_enumerate {A : Type} (l : list A) i x :
  (i, x) ∈ enumerate l <-> l !! i = Some x.
Proof.
  unfold enumerate. rewrite elem_of_lookup_imap. split.
  - intros (i' & x' & [= -> ->] & Hl). exact Hl.
  - intros Hl. exists i, x. split; [reflexivity | exact Hl].
Qed.

Lemma elem_of_writes vertices a b :
  (a, b) ∈ writes vertices
  <-> (exists v, vertices !! b = Some v /\ a ∈ v.2)
      \/ (exists v, vertices !! a = Some v /\ b ∈ v.2).
Proof.
  unfold writes. rewrite list_elem_of_bind. split.
  - intros ([i v] & Hin & Hiv). apply elem_of_enumerate in Hiv.
    apply list_elem_of_bind in Hin as (nb & Hin & Hnb). simpl in *.
    apply elem_of_cons in Hin as [[= -> ->]|Hin].
    + left. exists v. split; assumption.
    + apply list_elem_of_singleton in Hin. injection Hin as -> ->.
      right. exists v. split; assumption.
  - intros [(v & Hv & Ha)|(v & Hv & Hb)].
    + exists (b, v). split; [|apply elem_of_enumerate; exact Hv].
      apply list_elem_of_bind. exists a. split; [left | exact Ha].
    + exists (a, v). split; [|apply elem_of_enumerate; exact Hv].
      apply list_elem_of_bind. exists b. split; [right; left | exact Hb].
Qed.

Lemma writes_in_range vertices :
  neighbors_in_range vertices
  <-> Forall (fun p : nat * nat => (p.1 < length vertices)%nat
                                   /\ (p.2 < length vertices)%nat)
             (writes vertices).
Proof.
  unfold neighbors_in_range. rewrite !Forall_forall. split.
  - intros Hall [a b] Hin. apply elem_of_writes in Hin as [(v & Hv & Ha)|(v & Hv & Hb)].
    + pose proof (lookup_lt_Some _ _ _ Hv) as Hlt.
      assert (Hvin : v ∈ vertices) by (apply list_elem_of_lookup; eauto).
      pose proof (proj1 (Forall_forall _ _) (Hall v Hvin) a Ha) as Hnb.
      simpl in *. lia.
    + pose proof (lookup_lt_Some _ _ _ Hv) as Hlt.
      assert (Hvin : v ∈ vertices) by (apply list_elem_of_lookup; eauto).
      pose proof (proj1 (Forall_forall _ _) (Hall v Hvin) b Hb) as Hnb.
      simpl in *. lia.
  - intros Hall v Hv. apply Forall_forall. intros nb Hnb.
    apply list_elem_of_lookup in Hv as [i Hi].
    assert (Hin : (nb, i) ∈ writes vertices)
      by (apply elem_of_writes; left; exists v; split; assumption).
    apply Hall in Hin. simpl in Hin. lia.
Qed.

(** What [all_zs] holds after the loop. *)
Lemma all_zs_spec vertices :
  neighbors_in_range vertices ->
  exists zs,
    all_zs vertices = Ok zs
    /\ square (length vertices) zs
    /\ forall a b,
         entry zs a b = true
         <-> (exists v, vertices !! b = Some v /\ a ∈ v.2)
             \/ (exists v, vertices !! a = Some v /\ b ∈ v.2).
Proof.
  intros Hr. apply writes_in_range in Hr.
  destruct (rfold_setitem_ok _ _ _ (square_zeros (length vertices)) Hr)
    as (zs & Hrun & Hsq & Hent).
  exists zs. rewrite all_zs_writes. split; [exact Hrun|]. split; [exact Hsq|].
  intros a b. rewrite Hent, entry_zeros. simpl.
  rewrite bool_decide_eq_true. apply elem_of_writes.
Qed.

(** The Pauli strings of the graph state *)

Lemma dot_zeros n z : dot (replicate n false) z = false.
Proof.
  unfold dot. revert z. induction n as [|n IH]; intros [|c z]; simpl; try reflexivity.
  apply IH.
Qed.

(** The sum against a unit row picks one entry. *)
Lemma dot_unit n : forall i z,
  (i < n)%nat -> dot (<[i := true]> (replicate n false)) z = default false (z !! i).
Proof.
  induction n as [|n IH]; intros i z Hi; [lia|].
  destruct i as [|i], z as [|c z]; simpl; try reflexivity.
  - change (dot (true :: replicate n false) (c :: z))
      with (xorb (true && c) (dot (replicate n false) z)).
    rewrite dot_zeros. destruct c; reflexivity.
  - change (dot (false :: <[i := true]> (replicate n false)) (c :: z))
      with (xorb (false && c) (dot (<[i := true]> (replicate n false)) z)).
    rewrite IH by lia. simpl. destruct (default false (z !! i)); reflexivity.
Qed.

Lemma lookup_identity n i :
  (i < n)%nat -> identity n !! i = Some (<[i := true]> (replicate n false)).
Proof.
  intros Hi. unfold identity. rewrite list_lookup_fmap, lookup_seq_lt by exact Hi.
  reflexivity.
Qed.

(** X10: the Pauli strings that [get_stabilizer_tableau_from_vertices]
    hands to [stim.Tableau.from_stabilizers], one X on each vertex with Z on
    its neighbours, commute pairwise in the sense of the file's own
    [commutes], whatever the neighbour lists are (as long as they name
    vertices): no graph makes the generators anticommute. *)
Theorem X10_graph_state_generators_commute vertices :
  neighbors_in_range vertices ->
  (0 < length vertices)%nat ->
  exists ps,
    paulis vertices = Ok ps
    /\ length ps = length vertices
    /\ forall p q, p ∈ ps -> q ∈ ps ->
                   Tableau.commutes (pauli_row p) (pauli_row q) = Ok true.
Proof.
  intros Hr Hn. destruct (all_zs_spec vertices Hr) as (zs & Hrun & [Hlen Hrows] & Hent).
  set (n := length vertices) in *.
  exists (zip (identity n) zs). unfold paulis. rewrite Hrun. simpl.
  split; [reflexivity|]. split.
  { rewrite length_zip_with. unfold identity. rewrite length_fmap, length_seq. lia. }
  assert (Hrow : forall p, p ∈ zip (identity n) zs ->
            exists i, (i < n)%nat /\ p.1 = <[i := true]> (replicate n false)
                      /\ zs !! i = Some p.2 /\ length p.2 = n).
  { intros p Hp. apply list_elem_of_lookup in Hp as [i Hi].
    apply lookup_zip_with_Some in Hi as (u & z & -> & Hu & Hz).
    assert (Hi : (i < n)%nat) by (apply lookup_lt_Some in Hz; lia).
    rewrite lookup_identity in Hu by exact Hi. injection Hu as <-.
    exists i. split; [exact Hi|]. split; [reflexivity|]. split; [exact Hz|].
    apply (proj1 (Forall_forall _ _) Hrows), list_elem_of_lookup. eauto. }
  intros p q Hp Hq.
  destruct (Hrow p Hp) as (i & Hi & Hpu & Hpz & Hpl).
  destruct (Hrow q Hq) as (j & Hj & Hqu & Hqz & Hql).
  assert (Hlu : forall k, length (<[k := true]> (replicate n false)) = n)
    by (intros k; rewrite length_insert, length_replicate; reflexivity).
  unfold pauli_row. rewrite (commutes_symplectic n);
    [|exact Hn|rewrite length_app, Hpu, Hlu, Hpl; lia
     |rewrite length_app, Hqu, Hlu, Hql; lia].
  unfold symplectic.
  rewrite !take_app_length', !drop_app_length'
    by (rewrite ?Hpu, ?Hqu; first [apply Hlu | symmetry; apply Hlu]).
  rewrite Hpu, Hqu, (dot_comm p.2), !dot_unit by assumption.
  assert (Hji : default false (q.2 !! i) = entry zs j i)
    by (unfold entry; rewrite Hqz; reflexivity).
  assert (Hij : default false (p.2 !! j) = entry zs i j)
    by (unfold entry; rewrite Hpz; reflexivity).
  rewrite Hji, Hij.
  assert (Hsym : entry zs j i = entry zs i j)
    by (apply eq_true_iff_eq; rewrite !Hent; tauto).
  rewrite Hsym. destruct (entry zs i j); reflexivity.
Qed.

(** The hypotheses of X10 hold on the triangle given by one-sided
    neighbour lists. *)
Lemma X10_witness :
  exists ps,
    paulis [(1, [1%nat; 2%nat]); (1, [2%nat]); (1, [])] = Ok ps
    /\ length ps = 3%nat.
Proof.
  destruct (X10_graph_state_generators_commute
              [(1, [1%nat; 2%nat]); (1, [2%nat]); (1, [])])
    as (ps & Hps & Hlen & _).
  - apply (bool_decide_unpack _). vm_compute. exact I.
  - simpl. lia.
  - exists ps. split; assumption.
Defined.

Lemma calls_loop cl : forall n acc,
  (n <= length cl)%nat ->
  rfold (calls_round cl) acc (seq 0 n)
  = Ok (acc ++ concat (imap (fun i cs => calls_of cs i) (take n cl))).
Proof.
  induction n as [|n IH]; intros acc Hn.
  - simpl. rewrite app_nil_r. reflexivity.
  - rewrite seq_S, rfold_app, IH by lia. simpl.
    destruct (lookup_lt_is_Some_2 cl n) as [cs Hcs]; [lia|].
    unfold calls_round. rewrite Hcs. simpl.
    rewrite (take_S_r _ _ _ Hcs), imap_app, concat_app. simpl.
    rewrite length_take, Nat.min_l, Nat.add_0_r, app_nil_r, app_assoc by lia.
    reflexivity.
Qed.

Lemma calls_loop_raises cl n acc :
  (length cl < n)%nat -> rfold (calls_round cl) acc (seq 0 n) = Raise IndexError.
Proof.
  intros Hn.
  replace n with (length cl + S (n - S (length cl)))%nat by lia.
  assert (Hend : forall calls, calls_round cl calls (length cl) = Raise IndexError).
  { intros calls. unfold calls_round. rewrite lookup_ge_None_2 by lia. reflexivity. }
  rewrite seq_app, rfold_app, calls_loop by lia. simpl.
  rewrite Hend. reflexivity.
Qed.

Lemma decode_in_range label :
  1 <= label <= 6 -> decode (label - 1) = [class_gates label].
Proof.
  intros Hl.
  assert (label = 1 \/ label = 2 \/ label = 3 \/ label = 4 \/ label = 5 \/ label = 6)
    as [->|[->|[->|[->|[->| ->]]]]] by lia; reflexivity.
Qed.

Lemma decode_out_of_range label :
  ~ 1 <= label <= 6 -> decode (label - 1) = [].
Proof.
  intros Hl. unfold decode.
  rewrite !bool_decide_eq_false_2 by lia. reflexivity.
Qed.

Lemma calls_of_class_gates label i :
  calls_of (class_gates label) i = (fun g => (g, i)) <$> class_gates label.
Proof.
  destruct label as [|p|p]; try reflexivity.
  do 3 (destruct p as [p|p|]; try reflexivity).
Qed.

Lemma cliffords_in_range vertices :
  labels_in_range vertices ->
  cliffords vertices = (fun v : Z * list nat => class_gates v.1) <$> vertices.
Proof.
  unfold cliffords. induction 1 as [|v vs Hv _ IH]; [reflexivity|].
  change ((v :: vs) ≫= (fun v => decode (v.1 - 1)))
    with (decode (v.1 - 1) ++ (vs ≫= (fun v => decode (v.1 - 1)))).
  rewrite IH, (decode_in_range _ Hv). reflexivity.
Qed.

Lemma length_cliffords vertices :
  (length (cliffords vertices) <= length vertices)%nat
  /\ (~ labels_in_range vertices -> (length (cliffords vertices) < length vertices)%nat).
Proof.
  unfold cliffords, labels_in_range. induction vertices as [|v vs [IHle IHlt]].
  - split; [reflexivity|]. intros Hnot. exfalso. apply Hnot. constructor.
  - change ((v :: vs) ≫= (fun v => decode (v.1 - 1)))
      with (decode (v.1 - 1) ++ (vs ≫= (fun v => decode (v.1 - 1)))).
    rewrite length_app. simpl.
    destruct (decide (1 <= v.1 <= 6)) as [Hv|Hv].
    + rewrite (decode_in_range _ Hv). simpl. split; [lia|].
      intros Hnot. assert (Hvs : ~ Forall (fun v : Z * list nat => 1 <= v.1 <= 6) vs)
        by (intros Hvs; apply Hnot; constructor; assumption).
      specialize (IHlt Hvs). lia.
    + rewrite (decode_out_of_range _ Hv). simpl. split; [lia|]. intros _. lia.
Qed.

(** X11: the decoding of the local-Clifford labels. When every label is one
    of the six classes 1 to 6, the last loop applies to each qubit exactly
    the gates of its own class, in vertex order; a label outside 1 to 6
    appends nothing to [cliffords], which shifts the classes of the later
    vertices onto earlier qubits and ends the loop with [IndexError]. *)
Theorem X11_labels_are_decoded_on_their_own_qubit vertices :
  (labels_in_range vertices ->
   simulator_calls vertices
   = Ok (concat (imap (fun i (v : Z * list nat) => (fun g => (g, i)) <$> class_gates v.1)
                      vertices)))
  /\ (~ labels_in_range vertices -> simulator_calls vertices = Raise IndexError).
Proof.
  unfold simulator_calls. split.
  - intros Hl. rewrite calls_loop by (rewrite (cliffords_in_range _ Hl), length_fmap; lia).
    simpl. rewrite (cliffords_in_range _ Hl).
    rewrite firstn_all2 by (rewrite length_fmap; lia).
    rewrite imap_fmap. do 2 f_equal. apply imap_ext. intros i v _. simpl.
    apply calls_of_class_gates.
  - intros Hl. apply calls_loop_raises. apply length_cliffords. exact Hl.
Qed.

(** The hypotheses of X11 hold on labels 3 and 5, and fail on a label 7. *)
Lemma X11_witness :
  simulator_calls [(3, []); (5, [])] = Ok [("h", 0); ("s", 1); ("h", 1)]%string%nat
  /\ simulator_calls [(7, []); (3, [])] = Raise IndexError.
Proof.
  split.
  - destruct (X11_labels_are_decoded_on_their_own_qubit [(3, []); (5, [])]) as [Hok _].
    rewrite Hok; [reflexivity|]. apply (bool_decide_unpack _). vm_compute. exact I.
  - destruct (X11_labels_are_decoded_on_their_own_qubit [(7, []); (3, [])]) as [_ Hr].
    apply Hr. apply (bool_decide_unpack _). vm_compute. exact I.
Defined.

End GraphTableauFacts.

(** ** The graphs of [circuit_compilers.py] *)

Section NxFacts.
Import Nx.

Lemma neighbours_add_missing_node u g x :
  default ∅ (add_missing_node u g !! x) = default ∅ (g !! x).
Proof.
  unfold add_missing_node. destruct (g !! u) as [s|] eqn:Hu; [reflexivity|].
  destruct (decide (u = x)) as [->|Hne].
  - rewrite lookup_insert_eq, Hu. reflexivity.
  - rewrite lookup_insert_ne by exact Hne. reflexivity.
Qed.

Lemma dom_add_missing_node u g x :
  x ∈ dom (add_missing_node u g) <-> x = u \/ x ∈ dom g.
Proof.
  unfold add_missing_node. destruct (g !! u) as [s|] eqn:Hu.
  - split; [tauto|]. intros [->|Hx]; [|exact Hx]. apply elem_of_dom. eauto.
  - rewrite dom_insert_L, elem_of_union, elem_of_singleton. tauto.
Qed.

(** One [add_edge]: the edge, in both directions, and its two ends. *)
Lemma has_edge_add_edge a b g u v :
  has_edge (add_edge a b g) u v
  <-> has_edge g u v \/ (u = a /\ v = b) \/ (u = b /\ v = a).
Proof.
  unfold has_edge, add_edge.
  destruct (decide (b = u)) as [->|Hb].
  - rewrite lookup_insert_eq. simpl.
    destruct (decide (a = u)) as [->|Ha].
    + rewrite lookup_insert_eq. simpl. rewrite !neighbours_add_missing_node.
      rewrite !elem_of_union, !elem_of_singleton. intuition congruence.
    + rewrite lookup_insert_ne by exact Ha. rewrite !neighbours_add_missing_node.
      rewrite !elem_of_union, !elem_of_singleton. intuition congruence.
  - rewrite lookup_insert_ne by exact Hb.
    destruct (decide (a = u)) as [->|Ha].
    + rewrite lookup_insert_eq. simpl. rewrite !neighbours_add_missing_node.
      rewrite !elem_of_union, !elem_of_singleton. intuition congruence.
    + rewrite lookup_insert_ne by exact Ha. rewrite !neighbours_add_missing_node.
      intuition congruence.
Qed.

Lemma dom_add_edge a b g x :
  x ∈ dom (add_edge a b g) <-> x = a \/ x = b \/ x ∈ dom g.
Proof.
  unfold add_edge. rewrite !dom_insert_L, !elem_of_union, !elem_of_singleton.
  rewrite !dom_add_missing_node. tauto.
Qed.

(** A series of [add_edge]. *)
Lemma add_edges_spec es : forall g u v,
  has_edge (foldl (fun g (e : nat * nat) => add_edge e.1 e.2 g) g es) u v
  <-> has_edge g u v \/ (u, v) ∈ es \/ (v, u) ∈ es.
Proof.
  induction es as [|[a b] es IH]; intros g u v; simpl.
  - split; [tauto|]. intros [Hg|[Hin|Hin]]; [exact Hg|inversion Hin..].
  - rewrite IH, has_edge_add_edge, !elem_of_cons. split.
    + intros [[Hg|[[-> ->]|[-> ->]]]|[Hin|Hin]]; eauto 6.
    + intros [Hg|[[[= -> ->]|Hin]|[[= -> ->]|Hin]]]; eauto 6.
Qed.

Lemma add_edges_dom es : forall g x,
  x ∈ dom (foldl (fun g (e : nat * nat) => add_edge e.1 e.2 g) g es)
  <-> x ∈ dom g \/ exists e, e ∈ es /\ (x = e.1 \/ x = e.2).
Proof.
  induction es as [|[a b] es IH]; intros g x; simpl.
  - split; [tauto|]. intros [Hg|(e & Hin & _)]; [exact Hg|inversion Hin].
  - rewrite IH, dom_add_edge. split.
    + intros [[Ha|[Hb|Hg]]|(e & Hin & He)].
      * right. exists (a, b). split; [left|left; exact Ha].
      * right. exists (a, b). split; [left|right; exact Hb].
      * left. exact Hg.
      * right. exists e. split; [right; exact Hin|exact He].
    + intros [Hg|(e & Hin & He)]; [tauto|].
      apply elem_of_cons in Hin as [->|Hin]; simpl in He; [tauto|].
      right. exists e. split; assumption.
Qed.

Lemma foldl_bind_ext {S A B : Type} (f : S -> B -> S) (h : A -> list B)
  (k : S -> A -> S) :
  (forall s x, k s x = foldl f s (h x)) ->
  forall (l : list A) (s : S), foldl k s l = foldl f s (l ≫= h).
Proof.
  intros Hk. induction l as [|x l IH]; intros s; [reflexivity|].
  change ((x :: l) ≫= h) with (h x ++ (l ≫= h)).
  rewrite foldl_app. simpl. rewrite Hk. apply IH.
Qed.

Lemma get_nx_graph_edges adj :
  get_nx_graph_from_rbs_adj_list adj
  = foldl (fun g (e : nat * nat) => add_edge e.1 e.2 g)
          (empty_graph (length adj)) (listed_edges adj).
Proof.
  unfold get_nx_graph_from_rbs_adj_list, listed_edges.
  apply foldl_bind_ext. intros g [i nbs]. simpl. revert g.
  induction nbs as [|nb nbs IH]; intros g; [reflexivity|]. simpl. apply IH.
Qed.

Lemma has_edge_empty_graph n u v : ~ has_edge (empty_graph n) u v.
Proof.
  unfold has_edge, empty_graph. rewrite lookup_gset_to_gmap.
  destruct (decide (u ∈ (list_to_set (seq 0 n) : gset nat))) as [Hu|Hu].
  - rewrite option_guard_True by exact Hu. simpl. apply not_elem_of_empty.
  - rewrite option_guard_False by exact Hu. simpl. apply not_elem_of_empty.
Qed.

Lemma dom_empty_graph n x : x ∈ dom (empty_graph n) <-> (x < n)%nat.
Proof.
  unfold empty_graph. rewrite dom_gset_to_gmap, elem_of_list_to_set, elem_of_seq. lia.
Qed.

Lemma elem_of_listed_edges adj u v :
  (u, v) ∈ listed_edges adj <-> exists l, adj !! u = Some l /\ v ∈ l.
Proof.
  unfold listed_edges. rewrite list_elem_of_bind. split.
  - intros ([i l] & Hin & Hil). apply elem_of_enumerate in Hil.
    apply list_elem_of_fmap in Hin as (nb & [= -> ->] & Hnb). simpl in *.
    exists l. split; assumption.
  - intros (l & Hl & Hv). exists (u, l). split; [|apply elem_of_enumerate; exact Hl].
    apply list_elem_of_fmap. exists v. split; [reflexivity | exact Hv].
Qed.

(** X12: the graph of [get_nx_graph_from_rbs_adj_list]. It has an edge
    between [u] and [v] exactly when one of them lists the other, so the
    graph is undirected even when the adjacency list is one-sided; its nodes
    are the positions of the list together with every id that occurs as a
    neighbour: an id beyond the end of the list becomes a new node and
    raises nothing. *)
Theorem X12_nx_graph_of_an_adjacency_list adj u v :
  (has_edge (get_nx_graph_from_rbs_adj_list adj) u v
   <-> (exists l, adj !! u = Some l /\ v ∈ l) \/ (exists l, adj !! v = Some l /\ u ∈ l))
  /\ (has_edge (get_nx_graph_from_rbs_adj_list adj) u v
      <-> has_edge (get_nx_graph_from_rbs_adj_list adj) v u)
  /\ (u ∈ dom (get_nx_graph_from_rbs_adj_list adj)
      <-> (u < length adj)%nat \/ exists i l, adj !! i = Some l /\ u ∈ l).
Proof.
  rewrite get_nx_graph_edges.
  assert (Hedge : forall a b,
            has_edge (foldl (fun g (e : nat * nat) => add_edge e.1 e.2 g)
                            (empty_graph (length adj)) (listed_edges adj)) a b
            <-> (exists l, adj !! a = Some l /\ b ∈ l)
                \/ (exists l, adj !! b = Some l /\ a ∈ l)).
  { intros a b. rewrite add_edges_spec, !elem_of_listed_edges.
    pose proof (has_edge_empty_graph (length adj) a b). tauto. }
  split; [apply Hedge|]. split; [rewrite !Hedge; tauto|].
  rewrite add_edges_dom, dom_empty_graph. split.
  - intros [Hu|([a b] & Hin & He)]; [left; exact Hu|].
    apply elem_of_listed_edges in Hin as (l & Hl & Hb). simpl in He.
    destruct He as [->| ->].
    + left. apply (lookup_lt_Some _ _ _ Hl).
    + right. exists a, l. split; assumption.
  - intros [Hu|(i & l & Hl & Hin)]; [left; exact Hu|].
    right. exists (i, u). split; [|right; reflexivity].
    apply elem_of_listed_edges. exists l. split; assumption.
Qed.

(** A loop whose body never raises is a plain fold. *)
Lemma rfold_ok_ext {S A B : Type} (f : S -> B -> S) (g : A -> list B)
  (h : S -> A -> result S) (l : list A) :
  (forall s x, x ∈ l -> h s x = Ok (foldl f s (g x))) ->
  forall s, rfold h s l = Ok (foldl f s (l ≫= g)).
Proof.
  induction l as [|x l IH]; intros Hh s; [reflexivity|].
  change ((x :: l) ≫= g) with (g x ++ (l ≫= g)).
  rewrite foldl_app. simpl. rewrite Hh by left. simpl.
  apply IH. intros s' y Hy. apply Hh. right. exact Hy.
Qed.

Lemma create_graph_edges svec :
  Forall (fun z => (length svec <= length z)%nat) svec ->
  create_graph_from_stabilizers svec
  = Ok (foldl (fun g (e : nat * nat) => add_edge e.1 e.2 g) Graph (upper_edges svec)).
Proof.
  intros Hlen. unfold create_graph_from_stabilizers, upper_edges.
  apply rfold_ok_ext. intros G i Hi. apply elem_of_seq in Hi.
  destruct (lookup_lt_is_Some_2 svec i) as [z Hz]; [lia|]. rewrite Hz.
  assert (Hlz : (length svec <= length z)%nat)
    by (apply (proj1 (Forall_forall _ _) Hlen), list_elem_of_lookup; eauto).
  apply rfold_ok_ext. intros G' j Hj. apply elem_of_seq in Hj.
  destruct (lookup_lt_is_Some_2 z j) as [b Hb]; [lia|]. rewrite Hb.
  unfold GraphTableau.entry. rewrite Hz. simpl. rewrite Hb. simpl.
  destruct b; reflexivity.
Qed.

Lemma elem_of_upper_edges svec u v :
  (u, v) ∈ upper_edges svec
  <-> (u < v < length svec)%nat /\ GraphTableau.entry svec u v = true.
Proof.
  unfold upper_edges. rewrite list_elem_of_bind. split.
  - intros (i & Hin & Hi). apply elem_of_seq in Hi.
    apply list_elem_of_bind in Hin as (j & Hin & Hj). apply elem_of_seq in Hj.
    destruct (GraphTableau.entry svec i j) eqn:He; [|inversion Hin].
    apply list_elem_of_singleton in Hin. injection Hin as -> ->.
    split; [lia | exact He].
  - intros [Huv He]. exists u. split; [|apply elem_of_seq; lia].
    apply list_elem_of_bind. exists v. split; [|apply elem_of_seq; lia].
    rewrite He. left.
Qed.

(** The graph of stabilizers whose Z vectors are long enough. *)
Lemma create_graph_spec svec :
  Forall (fun z => (length svec <= length z)%nat) svec ->
  exists G,
    create_graph_from_stabilizers svec = Ok G
    /\ (forall u v,
          has_edge G u v
          <-> ((u < v < length svec)%nat /\ GraphTableau.entry svec u v = true)
              \/ ((v < u < length svec)%nat /\ GraphTableau.entry svec v u = true))
    /\ (forall u, u ∈ dom G <-> exists v, has_edge G u v).
Proof.
  intros Hlen. eexists. split; [apply create_graph_edges; exact Hlen|].
  assert (Hedge : forall u v,
            has_edge (foldl (fun g (e : nat * nat) => add_edge e.1 e.2 g) Graph
                            (upper_edges svec)) u v
            <-> (u, v) ∈ upper_edges svec \/ (v, u) ∈ upper_edges svec).
  { intros u v. rewrite add_edges_spec. unfold has_edge at 1, Graph.
    rewrite lookup_empty. simpl. rewrite elem_of_empty. tauto. }
  split.
  - intros u v. rewrite Hedge, !elem_of_upper_edges. tauto.
  - intros u. rewrite add_edges_dom. unfold Graph at 1. rewrite dom_empty_L, elem_of_empty.
    split.
    + intros [[]|([a b] & Hin & He)]. simpl in He. destruct He as [->| ->].
      * exists b. apply Hedge. left. exact Hin.
      * exists a. apply Hedge. right. exact Hin.
    + intros (v & Hv). right. apply Hedge in Hv as [Hin|Hin].
      * exists (u, v). split; [exact Hin | left; reflexivity].
      * exists (v, u). split; [exact Hin | right; reflexivity].
Qed.

(** X13: the graph of [create_graph_from_stabilizers]. When every Z vector
    has an entry for every stabilizer, the function returns a graph with an
    edge between [u < v] exactly when the Z vector of the SMALLER index has
    its entry [v] set: the entries below the diagonal and on it are never
    read. Its nodes are the ends of its edges only, so a stabilizer without
    such an entry is not a node of the graph. *)
Theorem X13_graph_of_stabilizers_reads_the_upper_triangle svec :
  Forall (fun z => (length svec <= length z)%nat) svec ->
  exists G,
    create_graph_from_stabilizers svec = Ok G
    /\ (forall u v,
          has_edge G u v
          <-> ((u < v < length svec)%nat /\ GraphTableau.entry svec u v = true)
              \/ ((v < u < length svec)%nat /\ GraphTableau.entry svec v u = true))
    /\ (forall u, ~ has_edge G u u)
    /\ (forall u, u ∈ dom G <-> exists v, has_edge G u v).
Proof.
  intros Hlen. destruct (create_graph_spec svec Hlen) as (G & HG & Hedge & Hdom).
  exists G. split; [exact HG|]. split; [exact Hedge|]. split; [|exact Hdom].
  intros u Hu. apply Hedge in Hu. lia.
Qed.

(** The hypotheses of X13 hold on two stabilizers whose only set entry is
    below the diagonal: the graph has no node at all. *)
Lemma X13_witness :
  exists G,
    create_graph_from_stabilizers [[false; false]; [true; false]] = Ok G
    /\ dom G = ∅.
Proof.
  destruct (X13_graph_of_stabilizers_reads_the_upper_triangle
              [[false; false]; [true; false]])
    as (G & HG & _); [repeat constructor|].
  exists G. split; [exact HG|].
  vm_compute in HG. injection HG as <-. reflexivity.
Defined.

(** X14: the two graph constructions agree on the Z-part of a graph state.
    For neighbour lists that name vertices only, the graph that
    [create_graph_from_stabilizers] reads off the matrix [all_zs] of
    [get_stabilizer_tableau_from_vertices] has the same edges between
    distinct vertices as the graph that [get_nx_graph_from_rbs_adj_list]
    builds from the neighbour lists themselves. *)
Theorem X14_both_graphs_have_the_same_edges (vertices : list (Z * list nat)) :
  GraphTableau.neighbors_in_range vertices ->
  exists zs G,
    GraphTableau.all_zs vertices = Ok zs
    /\ create_graph_from_stabilizers zs = Ok G
    /\ forall u v, u <> v ->
         (has_edge G u v
          <-> has_edge (get_nx_graph_from_rbs_adj_list (snd <$> vertices)) u v).
Proof.
  intros Hr.
  destruct (all_zs_spec vertices Hr) as (zs & Hzs & [Hlen Hrows] & Hent).
  destruct (create_graph_spec zs) as (G & HG & Hedge & _).
  { eapply Forall_impl; [exact Hrows|]. intros z Hz. simpl in Hz. lia. }
  exists zs, G. split; [exact Hzs|]. split; [exact HG|].
  intros u v Huv. rewrite Hedge, get_nx_graph_edges, add_edges_spec, !Hent.
  rewrite !elem_of_listed_edges.
  pose proof (has_edge_empty_graph (length (snd <$> vertices)) u v) as Hempty.
  assert (Hadj : forall a b,
            (exists l, (snd <$> vertices) !! a = Some l /\ b ∈ l)
            <-> exists w : Z * list nat, vertices !! a = Some w /\ b ∈ w.2).
  { intros a b. rewrite list_lookup_fmap. split.
    - intros (l & Hl & Hb). destruct (vertices !! a) as [w|]; [|discriminate].
      injection Hl as <-. exists w. split; [reflexivity | exact Hb].
    - intros (w & Hw & Hb). exists w.2. rewrite Hw. split; [reflexivity | exact Hb]. }
  rewrite !Hadj.
  assert (Hin : forall a b (w : Z * list nat),
            vertices !! a = Some w -> b ∈ w.2 ->
            (a < length zs)%nat /\ (b < length zs)%nat).
  { intros a b w Hw Hb. pose proof (lookup_lt_Some _ _ _ Hw) as Ha.
    assert (Hwin : w ∈ vertices) by (apply list_elem_of_lookup; eauto).
    pose proof (proj1 (Forall_forall _ _)
                  (proj1 (Forall_forall _ _) Hr w Hwin) b Hb) as Hb'.
    simpl in Hb'. lia. }
  split.
  - intros [[_ [H1|H1]]|[_ [H1|H1]]]; tauto.
  - intros [Hf|[(w & Hw & Hb)|(w & Hw & Hb)]]; [tauto| |];
      destruct (Hin _ _ _ Hw Hb) as [Ha Hb'];
      destruct (decide (u < v)%nat);
      [left|right|left|right]; (split; [lia|]); eauto.
Qed.

(** The hypotheses of X14 hold on the star whose centre lists its leaves. *)
Lemma X14_witness :
  exists zs G,
    GraphTableau.all_zs [(1, [1%nat; 2%nat]); (1, []); (1, [])] = Ok zs
    /\ create_graph_from_stabilizers zs = Ok G
    /\ has_edge G 2 0.
Proof.
  destruct (X14_both_graphs_have_the_same_edges [(1, [1%nat; 2%nat]); (1, []); (1, [])])
    as (zs & G & Hzs & HG & Hsame).
  - apply (bool_decide_unpack _). vm_compute. exact I.
  - exists zs, G. split; [exact Hzs|]. split; [exact HG|].
    apply Hsame; [lia|]. unfold has_edge.
    apply (bool_decide_unpack _). vm_compute. exact I.
Defined.

End NxFacts.

(** ** The normal form *)

Section IcmForm.
Import Icm.

(** X15: the output of [get_icm] is in ICM form: when CNOT is not itself a
    gate to decompose, no operation of the output circuit has a gate of the
    decomposition set, and none is a RESET, whatever the input circuit. *)
Theorem X15_get_icm_output_has_no_gate_to_decompose c d out :
  "CNOT"%string ∉ d ->
  get_icm c d = Ok out ->
  Forall (fun o => (gate_name o ∉ d) /\ gate_name o <> "RESET"%string) (operations out).
Proof.
  intros Hcnot. unfold get_icm.
  destruct (run d (init c) (operations c)) as [st|e] eqn:Hrun; simpl; [|discriminate].
  intros [= <-]. simpl.
  apply (rfold_invariant _ (fun s => Forall (fun o => allocates d o = false)
                                            (icm_circuit s))
                         (operations c)) with (s := init c) in Hrun.
  - eapply Forall_impl; [exact Hrun|]. intros o Ho. unfold allocates in Ho.
    apply orb_false_elim in Ho as [Hd Hr].
    split; [apply (bool_decide_eq_false_1 _ Hd) | apply (bool_decide_eq_false_1 _ Hr)].
  - intros s op s' _ Hs. apply step_emits_plain; assumption.
  - constructor.
Qed.

(** The hypotheses of X15 hold on [T(0); RESET(0); T_Dagger(0)]. *)
Lemma X15_witness :
  ("CNOT"%string ∉ default_gates_to_decompose)
  /\ Forall (fun o => (gate_name o ∉ default_gates_to_decompose)
                      /\ gate_name o <> "RESET"%string)
            [CNOT 0 1; CNOT 2 3].
Proof.
  assert (Hcnot : "CNOT"%string ∉ default_gates_to_decompose)
    by (apply (bool_decide_unpack _); vm_compute; exact I).
  split; [exact Hcnot|].
  apply (X15_get_icm_output_has_no_gate_to_decompose
           (Circuit_ [T 0; RESET 0; T_Dagger 0]) default_gates_to_decompose
           (Circuit_ [CNOT 0 1; CNOT 2 3]) Hcnot).
  vm_compute. reflexivity.
Defined.

End IcmForm.


(** ** What [get_icm] returns on the circuits of the library *)

Section IcmOutput.
Import Icm.

(** On operations that all have a gate, the loop is the loop of [Icm]. *)
Lemma rfold_with_gate d ops : forall st,
  rfold (Orquestra.step d) st (map Orquestra.with_gate ops) = run d st ops.
Proof.
  unfold run. induction ops as [|op ops IH]; intros st; simpl; [reflexivity|].
  destruct (step d st op) as [st'|e]; simpl; [apply IH | reflexivity].
Qed.

Lemma get_icm_with_gate c d :
  Orquestra.get_icm (map Orquestra.with_gate (operations c)) (n_qubits c) d = get_icm c d.
Proof. unfold Orquestra.get_icm, get_icm. rewrite rfold_with_gate. reflexivity. Qed.

(** The exceptions of the loop: the [KeyError] of the dictionary access in
    the last branch, and the [AttributeError] of [op.gate]. *)
Lemma orquestra_run_raises d ops : forall st e,
  rfold (Orquestra.step d) st ops = Raise e ->
  (exists k, e = KeyError k) \/ e = AttributeError.
Proof.
  induction ops as [|[op|q] ops IH]; intros st e; simpl; [discriminate| |].
  - destruct (step d st op) as [st'|e'] eqn:E; simpl.
    + apply IH.
    + intros [= <-]. left. eapply step_raises. exact E.
  - intros [= <-]. right. reflexivity.
Qed.

Lemma orquestra_get_icm_raises ops n d e :
  Orquestra.get_icm ops n d = Raise e ->
  (exists k, e = KeyError k) \/ e = AttributeError.
Proof.
  unfold Orquestra.get_icm.
  destruct (rfold _ _ ops) as [st|e'] eqn:E; simpl; [discriminate|].
  intros [= <-]. eapply orquestra_run_raises. exact E.
Qed.

(** A [ResetOperation] that the loop reaches stops it. *)
Lemma reset_operation_raises c d q rest :
  wf_circuit c ->
  Orquestra.get_icm
    (map Orquestra.with_gate (operations c) ++ Orquestra.ResetOperation q :: rest)
    (n_qubits c) d
  = Raise AttributeError.
Proof.
  intros [Hn Hall].
  destruct (run_reaches c d (operations c) Hn Hall) as (st & Hrun & _).
  unfold Orquestra.get_icm. rewrite rfold_app, rfold_with_gate.
  change (mkState _ [] (n_qubits c - 1)) with (init c).
  rewrite Hrun. reflexivity.
Qed.


(** Where an operation of a well-formed circuit ends up in the output:
    after the output of the operations before it, and replaced by one CNOT
    per qubit, by nothing, or by itself on the current indices. *)
Lemma occurrence_in_output c d pre op post :
  wf_circuit c ->
  operations c = pre ++ op :: post ->
  let log := allocation_log d (n_qubits c) pre in
  let next := n_qubits c + Z.of_nat (length log) in
  let qs := qubit_indices op in
  exists before after,
    get_icm (mkCircuit pre (n_qubits c)) d = Ok (Circuit_ before)
    /\ get_icm c d
       = Ok (Circuit_
               (before
                ++ (if bool_decide (gate_name op ∈ d) then
                      zip_with CNOT (map (most_recent log) qs)
                               (fresh_indices next (length qs))
                    else if bool_decide (gate_name op = "RESET"%string) then []
                    else [mkOp (gate_name op) (map (most_recent log) qs)])
                ++ after))
    /\ (forall o q, o ∈ before -> q ∈ qubit_indices o -> 0 <= q < next)
    /\ (forall q, 0 <= q < n_qubits c -> 0 <= most_recent log q < next).
Proof.
  intros Hwf Hops log next qs.
  destruct (prefix_step c d pre op post Hwf Hops)
    as (st & Hrun & Hcnt & Hrange & Hicm & Hstep).
  fold log in Hcnt, Hrange, Hstep. cbn zeta in Hstep. fold qs in Hstep.
  assert (Hnext : icm_circuit_n_qubits st + 1 = next) by (unfold next; lia).
  rewrite Hnext in Hstep.
  pose proof Hwf as [Hn Hall].
  destruct (run_reaches c d (operations c) Hn Hall) as (stf & Hrunf & _).
  pose proof Hrunf as Hsplit. unfold run in Hsplit. rewrite Hops, rfold_app in Hsplit.
  fold (run d (init c) pre) in Hsplit. rewrite Hrun in Hsplit. simpl in Hsplit.
  rewrite Hstep in Hsplit. simpl in Hsplit.
  apply (run_extends d post) in Hsplit as [after Hafter].
  exists (icm_circuit st), after. split; [|split; [|split]].
  - unfold get_icm. change (init (mkCircuit pre (n_qubits c))) with (init c).
    simpl operations. rewrite Hrun. reflexivity.
  - unfold get_icm. rewrite Hrunf. simpl. do 2 f_equal. rewrite Hafter.
    destruct (bool_decide (gate_name op ∈ d));
      [|destruct (bool_decide (gate_name op = "RESET"%string))];
      simpl; rewrite <- ?app_assoc; reflexivity.
  - intros o q Ho Hq. pose proof (Hicm o q Ho Hq). lia.
  - intros q Hq. pose proof (Hrange q Hq). lia.
Qed.

(** The same, read off [get_icm] on the library's circuits. *)
Lemma orquestra_occurrence_in_output c d pre op post :
  wf_circuit c ->
  operations c = pre ++ op :: post ->
  let log := allocation_log d (n_qubits c) pre in
  let next := n_qubits c + Z.of_nat (length log) in
  let qs := qubit_indices op in
  exists out before after,
    Orquestra.get_icm (map Orquestra.with_gate (operations c)) (n_qubits c) d = Ok out
    /\ Orquestra.get_icm (map Orquestra.with_gate pre) (n_qubits c) d
       = Ok (Circuit_ before)
    /\ operations out
       = before
         ++ (if bool_decide (gate_name op ∈ d) then
               zip_with CNOT (map (most_recent log) qs) (fresh_indices next (length qs))
             else if bool_decide (gate_name op = "RESET"%string) then []
             else [mkOp (gate_name op) (map (most_recent log) qs)])
         ++ after
    /\ (forall o q, o ∈ before -> q ∈ qubit_indices o -> 0 <= q < next)
    /\ (forall q, 0 <= q < n_qubits c -> 0 <= most_recent log q < next).
Proof.
  intros Hwf Hops log next qs.
  destruct (occurrence_in_output c d pre op post Hwf Hops)
    as (before & after & Hpre & Hall & Hbefore & Hrange).
  eexists. exists before, after.
  split; [rewrite get_icm_with_gate; exact Hall|].
  split; [rewrite <- Hpre; apply (get_icm_with_gate (mkCircuit pre (n_qubits c)))|].
  split; [reflexivity|]. split; assumption.
Qed.


End IcmOutput.


(** ** The claims on [get_icm] *)

Section IcmOutputClaims.
Import Icm.







(** C4, as the loop has it: [get_icm] has no check of the gate kind. It
    never raises [UnsupportedGateKind], whatever the circuit: the
    exceptions it can raise are the [KeyError] of the dictionary access and
    the [AttributeError] of [op.gate]. On a circuit whose operations all
    have a gate and act on qubits of the circuit it returns an output
    circuit, in which every operation that is neither in the decomposition
    set nor named RESET, Clifford or not, is found right after the output
    of the operations before it, under its own gate and on the current
    indices of its qubits. *)
Theorem C4_get_icm_never_rejects_a_gate d :
  (forall ops n e,
     Orquestra.get_icm ops n d = Raise e ->
     e <> UnsupportedGateKind /\ ((exists k, e = KeyError k) \/ e = AttributeError))
  /\ (forall c,
        wf_circuit c ->
        exists out,
          Orquestra.get_icm (map Orquestra.with_gate (operations c)) (n_qubits c) d = Ok out
          /\ forall pre op post,
               operations c = pre ++ op :: post ->
               allocates d op = false ->
               exists before after,
                 Orquestra.get_icm (map Orquestra.with_gate pre) (n_qubits c) d
                 = Ok (Circuit_ before)
                 /\ operations out
                    = before
                      ++ [mkOp (gate_name op)
                               (map (most_recent (allocation_log d (n_qubits c) pre))
                                    (qubit_indices op))]
                      ++ after).
Proof.
  split.
  - intros ops n e Hraise. apply orquestra_get_icm_raises in Hraise.
    split; [|exact Hraise]. destruct Hraise as [[k ->]| ->]; discriminate.
  - intros c Hwf. pose proof Hwf as [Hn Hall].
    destruct (run_reaches c d (operations c) Hn Hall) as (st & Hrun & _).
    exists (Circuit_ (icm_circuit st)).
    assert (Hout : Orquestra.get_icm (map Orquestra.with_gate (operations c)) (n_qubits c) d
                   = Ok (Circuit_ (icm_circuit st))).
    { rewrite get_icm_with_gate. unfold get_icm. rewrite Hrun. reflexivity. }
    split; [exact Hout|].
    intros pre op post Hops Hal.
    destruct (orquestra_occurrence_in_output c d pre op post Hwf Hops)
      as (out & before & after & Hout' & Hpre & Hemit & _).
    rewrite Hout in Hout'. injection Hout' as Hout'.
    unfold allocates in Hal. apply orb_false_elim in Hal as [Hd Hr].
    rewrite Hd, Hr in Hemit. rewrite <- Hout' in Hemit.
    exists before, after. split; [exact Hpre | exact Hemit].
Qed.

(** The hypotheses of C4 hold on [RX(0); T(0)], which [get_icm] turns into
    a circuit that starts with the RX gate. *)
Lemma C4_witness :
  wf_circuit (Circuit_ [RX 0; T 0])
  /\ exists out before after,
       Orquestra.get_icm [Orquestra.with_gate (RX 0); Orquestra.with_gate (T 0)] 1
                         default_gates_to_decompose = Ok out
       /\ Orquestra.get_icm [] 1 default_gates_to_decompose = Ok (Circuit_ before)
       /\ operations out = before ++ [RX 0] ++ after.
Proof.
  assert (Hwf : wf_circuit (Circuit_ [RX 0; T 0]))
    by (apply (bool_decide_unpack _); vm_compute; exact I).
  split; [exact Hwf|].
  destruct (C4_get_icm_never_rejects_a_gate default_gates_to_decompose) as [_ Hok].
  destruct (Hok (Circuit_ [RX 0; T 0]) Hwf) as (out & Hout & Hpass).
  destruct (Hpass [] (RX 0) [T 0] eq_refl eq_refl) as (before & after & Hpre & Hemit).
  exists out, before, after. split; [exact Hout|]. split; [exact Hpre | exact Hemit].
Defined.

(** C4 as stated fails on [RX(0)]: RX is neither a Clifford gate nor in the
    decomposition set, and [get_icm] returns the circuit unchanged instead
    of failing. Where [get_icm] does raise, it is not with
    [UnsupportedGateKind]: it raises [KeyError] on an index beyond the
    qubit count, and [AttributeError] on an operation without a gate. *)
Lemma C4_unsupported_gate_is_passed_through :
  (exists op, op ∈ [RX 0]
              /\ (gate_name op ∉ clifford_gates)
              /\ (gate_name op ∉ default_gates_to_decompose))
  /\ Orquestra.get_icm [Orquestra.with_gate (RX 0)] 1 default_gates_to_decompose
     = Ok (Circuit_ [RX 0])
  /\ Orquestra.get_icm [Orquestra.with_gate (RX 0)] 1 default_gates_to_decompose
     <> Raise UnsupportedGateKind
  /\ Orquestra.get_icm [Orquestra.with_gate (RX 5)] 2 default_gates_to_decompose
     = Raise (KeyError 5)
  /\ Orquestra.get_icm [Orquestra.ResetOperation 0; Orquestra.with_gate (RX 0)] 1
                       default_gates_to_decompose
     = Raise AttributeError.
Proof.
  split; [|split; [|split; [|split]]].
  - exists (RX 0). split; [left|].
    split; apply (bool_decide_unpack _); vm_compute; exact I.
  - vm_compute. reflexivity.
  - vm_compute. discriminate.
  - vm_compute. reflexivity.
  - vm_compute. reflexivity.
Qed.

(** X5: [get_icm] keeps the order of the input. On a circuit whose
    operations all have a gate and act on qubits of the circuit, the gate
    names of the output are those of the input, read in order, with one
    CNOT per qubit in place of each gate to decompose, nothing in place of
    an operation whose gate is named RESET, and every other gate under its
    own name; in particular the number of output operations is determined
    by the gate names and arities of the input alone. When such a circuit is
    followed by a [ResetOperation] of the library, which has no gate,
    [get_icm] raises [AttributeError]. *)
Theorem X5_get_icm_keeps_the_order_of_gates c d :
  wf_circuit c ->
  (exists out,
     Orquestra.get_icm (map Orquestra.with_gate (operations c)) (n_qubits c) d = Ok out
     /\ map gate_name (operations out) = flat_map (emitted_gates d) (operations c)
     /\ length (operations out)
        = length (flat_map (emitted_gates d) (operations c)))
  /\ (forall q rest,
        Orquestra.get_icm
          (map Orquestra.with_gate (operations c) ++ Orquestra.ResetOperation q :: rest)
          (n_qubits c) d
        = Raise AttributeError).
Proof.
  intros Hwf. split.
  - pose proof Hwf as [Hn Hall].
    destruct (run_gate_names c d (operations c) Hn Hall) as (st & Hrun & Hnames).
    exists (Circuit_ (icm_circuit st)). rewrite get_icm_with_gate.
    unfold get_icm. rewrite Hrun. simpl.
    split; [reflexivity|]. split; [exact Hnames|].
    rewrite <- Hnames, length_map. reflexivity.
  - intros q rest. apply reset_operation_raises. exact Hwf.
Qed.

(** The hypotheses of X5 hold on [H(0); T(0); RESET(0); H(0)], where RESET
    is a gate of that name. *)
Lemma X5_witness :
  wf_circuit (Circuit_ [H 0; T 0; RESET 0; H 0])
  /\ (exists out,
        Orquestra.get_icm
          (map Orquestra.with_gate [H 0; T 0; RESET 0; H 0]) 1 default_gates_to_decompose
        = Ok out
        /\ map gate_name (operations out) = ["H"; "CNOT"; "H"]%string)
  /\ Orquestra.get_icm
       (map Orquestra.with_gate [H 0; T 0; RESET 0; H 0] ++ [Orquestra.ResetOperation 0])
       1 default_gates_to_decompose
     = Raise AttributeError.
Proof.
  assert (Hwf : wf_circuit (Circuit_ [H 0; T 0; RESET 0; H 0]))
    by (apply (bool_decide_unpack _); vm_compute; exact I).
  split; [exact Hwf|].
  destruct (X5_get_icm_keeps_the_order_of_gates
              (Circuit_ [H 0; T 0; RESET 0; H 0]) default_gates_to_decompose Hwf)
    as [(out & Hout & Hnames & _) Hreset].
  split.
  - exists out. split; [exact Hout|]. rewrite Hnames. vm_compute. reflexivity.
  - apply (Hreset 0 []).
Defined.

End IcmOutputClaims.


(** ** [all_zs] on Python integers *)

Section GraphTableauIntFacts.
Import GraphTableau GraphTableauInt.

Lemma wrap_nonneg n i : 0 <= i < Z.of_nat n -> wrap n i = Z.to_nat i.
Proof. intros Hi. unfold wrap. rewrite Z.mod_small by lia. reflexivity. Qed.

Lemma wrap_negative n i :
  - Z.of_nat n <= i < 0 -> wrap n i = Z.to_nat (i + Z.of_nat n).
Proof.
  intros Hi. unfold wrap.
  replace (i `mod` Z.of_nat n) with ((i + 1 * Z.of_nat n) `mod` Z.of_nat n)
    by (apply Z.mod_add; lia).
  rewrite Z.mod_small by lia. f_equal. lia.
Qed.

Lemma wrap_of_nat n i : (i < n)%nat -> wrap n (Z.of_nat i) = i.
Proof. intros Hi. rewrite wrap_nonneg by lia. apply Nat2Z.id. Qed.

Lemma axis_index_ok n i :
  - Z.of_nat n <= i < Z.of_nat n ->
  axis_index n i = Ok (wrap n i) /\ (wrap n i < n)%nat.
Proof.
  intros Hi. unfold axis_index. case_bool_decide as Hpos.
  - rewrite wrap_nonneg by exact Hpos. split; [reflexivity | lia].
  - rewrite bool_decide_eq_true_2 by lia.
    rewrite wrap_negative by lia. split; [reflexivity | lia].
Qed.

Lemma axis_index_inv n i k :
  axis_index n i = Ok k -> - Z.of_nat n <= i < Z.of_nat n.
Proof.
  unfold axis_index. case_bool_decide as Hpos; [lia|].
  case_bool_decide as Hneg; [lia | discriminate].
Qed.

Lemma axis_index_raises n i e : axis_index n i = Raise e -> e = IndexError.
Proof. unfold axis_index. repeat case_bool_decide; congruence. Qed.

(** The number of columns of a square matrix that has a row. *)
Lemma square_columns n m : square n m -> (0 < n)%nat -> snd (Tableau.shape m) = n.
Proof.
  intros [Hlen Hrows] Hn. destruct m as [|r m]; simpl in *; [lia|].
  apply Forall_cons in Hrows as [Hr _]. exact Hr.
Qed.

(** A write at valid indices is the write at the row and column they
    denote. *)
Lemma setitem_int_ok n m i j :
  square n m ->
  - Z.of_nat n <= i < Z.of_nat n -> - Z.of_nat n <= j < Z.of_nat n ->
  setitem_int m i j = setitem m (wrap n i) (wrap n j)
  /\ (wrap n i < n)%nat /\ (wrap n j < n)%nat.
Proof.
  intros Hsq Hi Hj. unfold setitem_int.
  rewrite (square_columns n m Hsq) by lia.
  destruct Hsq as [Hlen _]. rewrite Hlen.
  destruct (axis_index_ok n i Hi) as [-> Hwi].
  destruct (axis_index_ok n j Hj) as [-> Hwj].
  split; [reflexivity|]. split; assumption.
Qed.

Lemma setitem_int_inv n m i j m' :
  square n m -> setitem_int m i j = Ok m' ->
  - Z.of_nat n <= i < Z.of_nat n /\ - Z.of_nat n <= j < Z.of_nat n.
Proof.
  intros Hsq. unfold setitem_int.
  remember (snd (Tableau.shape m)) as cols eqn:Hcols.
  destruct (axis_index (length m) i) as [i'|e] eqn:Ei; simpl; [|discriminate].
  destruct (axis_index cols j) as [j'|e] eqn:Ej; simpl; [|discriminate].
  intros _. apply axis_index_inv in Ei. apply axis_index_inv in Ej.
  pose proof Hsq as [Hlen _]. rewrite Hlen in Ei.
  rewrite (square_columns n m Hsq) in Hcols by lia. subst cols. split; assumption.
Qed.

Lemma setitem_int_raises m i j e : setitem_int m i j = Raise e -> e = IndexError.
Proof.
  unfold setitem_int. generalize (snd (Tableau.shape m)). intros cols.
  destruct (axis_index (length m) i) as [i'|e1] eqn:Ei; simpl;
    [|intros [= <-]; apply (axis_index_raises _ _ _ Ei)].
  destruct (axis_index cols j) as [j'|e2] eqn:Ej; simpl;
    [|intros [= <-]; apply (axis_index_raises _ _ _ Ej)].
  apply setitem_raises.
Qed.

(** A series of writes at valid indices is the series of writes at the
    rows and columns they denote. *)
Lemma rfold_setitem_int n ps : forall m,
  square n m ->
  Forall (fun p : Z * Z => - Z.of_nat n <= p.1 < Z.of_nat n
                           /\ - Z.of_nat n <= p.2 < Z.of_nat n) ps ->
  rfold (fun m (p : Z * Z) => setitem_int m p.1 p.2) m ps
  = rfold (fun m (p : nat * nat) => setitem m p.1 p.2) m
          (map (fun p : Z * Z => (wrap n p.1, wrap n p.2)) ps)
  /\ Forall (fun p : nat * nat => (p.1 < n)%nat /\ (p.2 < n)%nat)
            (map (fun p : Z * Z => (wrap n p.1, wrap n p.2)) ps).
Proof.
  induction ps as [|[i j] ps IH]; intros m Hsq Hps; simpl.
  - split; [reflexivity | constructor].
  - apply Forall_cons in Hps as [[Hi Hj] Hps]. simpl in Hi, Hj.
    destruct (setitem_int_ok n m i j Hsq Hi Hj) as (-> & Hwi & Hwj).
    destruct (setitem_ok n m _ _ Hsq Hwi Hwj) as (m1 & -> & Hsq1 & _). simpl.
    destruct (IH m1 Hsq1 Hps) as [Hrun Hall].
    split; [exact Hrun|]. constructor; [split; assumption | exact Hall].
Qed.

Lemma rfold_setitem_int_inv n ps : forall m m',
  square n m ->
  rfold (fun m (p : Z * Z) => setitem_int m p.1 p.2) m ps = Ok m' ->
  Forall (fun p : Z * Z => - Z.of_nat n <= p.1 < Z.of_nat n
                           /\ - Z.of_nat n <= p.2 < Z.of_nat n) ps.
Proof.
  induction ps as [|[i j] ps IH]; intros m m' Hsq Hrun; [constructor|].
  simpl in Hrun.
  destruct (setitem_int m i j) as [m1|e] eqn:Hset; simpl in Hrun; [|discriminate].
  pose proof (setitem_int_inv n m i j m1 Hsq Hset) as [Hi Hj].
  destruct (setitem_int_ok n m i j Hsq Hi Hj) as (Heq & Hwi & Hwj).
  destruct (setitem_ok n m _ _ Hsq Hwi Hwj) as (m1' & Hset' & Hsq1 & _).
  rewrite Heq, Hset' in Hset. injection Hset as <-.
  constructor; [split; assumption|]. apply (IH m1' m' Hsq1 Hrun).
Qed.

Lemma rfold_setitem_int_raises ps : forall m e,
  rfold (fun m (p : Z * Z) => setitem_int m p.1 p.2) m ps = Raise e -> e = IndexError.
Proof.
  induction ps as [|[i j] ps IH]; intros m e; simpl; [discriminate|].
  destruct (setitem_int m i j) as [m1|e'] eqn:Hset; simpl.
  - apply IH.
  - intros [= <-]. apply (setitem_int_raises m i j e' Hset).
Qed.

Lemma all_zs_int_writes vertices :
  GraphTableauInt.all_zs vertices
  = rfold (fun m (p : Z * Z) => setitem_int m p.1 p.2)
          (zeros (length vertices)) (GraphTableauInt.writes vertices).
Proof.
  unfold GraphTableauInt.all_zs, GraphTableauInt.writes.
  apply rfold_bind_ext. intros m iv.
  apply rfold_bind_ext. intros m' nb. simpl.
  destruct (setitem_int m' nb (Z.of_nat iv.1)) as [m1|e]; simpl; [|reflexivity].
  destruct (setitem_int m1 (Z.of_nat iv.1) nb); reflexivity.
Qed.

Lemma elem_of_writes_int vertices (a b : Z) :
  (a, b) ∈ GraphTableauInt.writes vertices
  <-> (exists i v, vertices !! i = Some v /\ a ∈ v.2 /\ b = Z.of_nat i)
      \/ (exists i v, vertices !! i = Some v /\ b ∈ v.2 /\ a = Z.of_nat i).
Proof.
  unfold GraphTableauInt.writes. rewrite list_elem_of_bind. split.
  - intros ([i v] & Hin & Hiv). apply elem_of_enumerate in Hiv.
    apply list_elem_of_bind in Hin as (nb & Hin & Hnb). simpl in *.
    apply elem_of_cons in Hin as [[= -> ->]|Hin].
    + left. exists i, v. split; [exact Hiv|]. split; [exact Hnb | reflexivity].
    + apply list_elem_of_singleton in Hin. injection Hin as -> ->.
      right. exists i, v. split; [exact Hiv|]. split; [exact Hnb | reflexivity].
  - intros [(i & v & Hv & Ha & ->)|(i & v & Hv & Hb & ->)].
    + exists (i, v). split; [|apply elem_of_enumerate; exact Hv].
      apply list_elem_of_bind. exists a. split; [left | exact Ha].
    + exists (i, v). split; [|apply elem_of_enumerate; exact Hv].
      apply list_elem_of_bind. exists b. split; [right; left | exact Hb].
Qed.

Lemma writes_int_in_range vertices :
  ids_in_range vertices
  <-> Forall (fun p : Z * Z =>
                - Z.of_nat (length vertices) <= p.1 < Z.of_nat (length vertices)
                /\ - Z.of_nat (length vertices) <= p.2 < Z.of_nat (length vertices))
             (GraphTableauInt.writes vertices).
Proof.
  unfold ids_in_range. rewrite !Forall_forall. split.
  - intros Hall [a b] Hin.
    apply elem_of_writes_int in Hin as [(i & v & Hv & Ha & ->)|(i & v & Hv & Hb & ->)].
    + pose proof (lookup_lt_Some _ _ _ Hv) as Hlt.
      assert (Hvin : v ∈ vertices) by (apply list_elem_of_lookup; eauto).
      pose proof (proj1 (Forall_forall _ _) (Hall v Hvin) a Ha) as Hnb.
      simpl in *. lia.
    + pose proof (lookup_lt_Some _ _ _ Hv) as Hlt.
      assert (Hvin : v ∈ vertices) by (apply list_elem_of_lookup; eauto).
      pose proof (proj1 (Forall_forall _ _) (Hall v Hvin) b Hb) as Hnb.
      simpl in *. lia.
  - intros Hall v Hv. apply Forall_forall. intros nb Hnb.
    apply list_elem_of_lookup in Hv as [i Hi].
    assert (Hin : (nb, Z.of_nat i) ∈ GraphTableauInt.writes vertices)
      by (apply elem_of_writes_int; left; exists i, v; split; [|split];
          [assumption | assumption | reflexivity]).
    apply Hall in Hin. simpl in Hin. lia.
Qed.

(** X9: the Z-part that [get_stabilizer_tableau_from_vertices] builds from
    the neighbour lists, the ids being Python integers. When every id lies
    in [-n, n), [n] the number of vertices, the loop ends without raising,
    [all_zs] is a square matrix, its entry [(a, b)] is set exactly when
    vertex [b] lists an id that denotes [a] or vertex [a] lists an id that
    denotes [b] (an id [k < 0] denotes [n + k], as numpy indexes), and so
    it is symmetric even when the neighbour lists are not; when some id
    lies outside [-n, n) the loop raises [IndexError]. *)
Theorem X9_all_zs_is_the_symmetrised_adjacency vertices :
  let n := length vertices in
  (ids_in_range vertices ->
   exists zs,
     GraphTableauInt.all_zs vertices = Ok zs
     /\ square n zs
     /\ (forall a b,
           entry zs a b = true
           <-> (exists v id, vertices !! b = Some v /\ id ∈ v.2 /\ wrap n id = a)
               \/ (exists v id, vertices !! a = Some v /\ id ∈ v.2 /\ wrap n id = b))
     /\ (forall a b, entry zs a b = entry zs b a))
  /\ (~ ids_in_range vertices -> GraphTableauInt.all_zs vertices = Raise IndexError).
Proof.
  intros n. split.
  - intros Hr. apply writes_int_in_range in Hr. fold n in Hr.
    destruct (rfold_setitem_int n _ _ (square_zeros n) Hr) as [Hrun Hall].
    destruct (rfold_setitem_ok _ _ _ (square_zeros n) Hall) as (zs & Hrun' & Hsq & Hent).
    assert (Hspec : forall a b,
              entry zs a b = true
              <-> (exists v id, vertices !! b = Some v /\ id ∈ v.2 /\ wrap n id = a)
                  \/ (exists v id, vertices !! a = Some v /\ id ∈ v.2 /\ wrap n id = b)).
    { intros a b. rewrite Hent, entry_zeros. simpl. rewrite bool_decide_eq_true.
      rewrite list_elem_of_fmap. split.
      - intros ([x y] & [= -> ->] & Hin). simpl.
        apply elem_of_writes_int in Hin as [(i & v & Hv & Hx & ->)|(i & v & Hv & Hy & ->)].
        + left. exists v, x. rewrite wrap_of_nat by (eapply lookup_lt_Some; exact Hv).
          split; [exact Hv|]. split; [exact Hx | reflexivity].
        + right. exists v, y. rewrite wrap_of_nat by (eapply lookup_lt_Some; exact Hv).
          split; [exact Hv|]. split; [exact Hy | reflexivity].
      - intros [(v & id & Hv & Hid & <-)|(v & id & Hv & Hid & <-)].
        + exists (id, Z.of_nat b). simpl.
          rewrite wrap_of_nat by (eapply lookup_lt_Some; exact Hv).
          split; [reflexivity|]. apply elem_of_writes_int. left.
          exists b, v. split; [exact Hv|]. split; [exact Hid | reflexivity].
        + exists (Z.of_nat a, id). simpl.
          rewrite wrap_of_nat by (eapply lookup_lt_Some; exact Hv).
          split; [reflexivity|]. apply elem_of_writes_int. right.
          exists a, v. split; [exact Hv|]. split; [exact Hid | reflexivity]. }
    exists zs. rewrite all_zs_int_writes. fold n. rewrite Hrun.
    split; [exact Hrun'|]. split; [exact Hsq|]. split; [exact Hspec|].
    intros a b. apply eq_true_iff_eq. rewrite !Hspec. tauto.
  - intros Hnot. rewrite all_zs_int_writes.
    destruct (rfold _ _ _) as [zs|e] eqn:Hrun.
    + exfalso. apply Hnot. apply writes_int_in_range.
      apply (rfold_setitem_int_inv _ _ _ _ (square_zeros (length vertices)) Hrun).
    + f_equal. apply (rfold_setitem_int_raises _ _ _ Hrun).
Qed.

(** The hypotheses of X9 hold on a path whose middle vertex lists nobody
    and whose last vertex lists it as -2, and fail on a vertex that lists a
    neighbour 5 out of 1. *)
Lemma X9_witness :
  (exists zs, GraphTableauInt.all_zs [(1, [1]); (1, []); (1, [-2])] = Ok zs
              /\ entry zs 1 0 = true /\ entry zs 1 2 = true /\ entry zs 2 1 = true)
  /\ GraphTableauInt.all_zs [(1, [5])] = Raise IndexError.
Proof.
  destruct (X9_all_zs_is_the_symmetrised_adjacency [(1, [1]); (1, []); (1, [-2])])
    as [Hok _].
  destruct (X9_all_zs_is_the_symmetrised_adjacency [(1, [5])]) as [_ Hraise].
  split.
  - destruct Hok as (zs & Hrun & _ & Hent & _).
    { apply (bool_decide_unpack _). vm_compute. exact I. }
    exists zs. split; [exact Hrun|]. split; [|split]; apply Hent.
    + left. exists (1, [1]), 1. split; [reflexivity|]. split; [left | reflexivity].
    + left. exists (1, [-2]), (-2). split; [reflexivity|]. split; [left | reflexivity].
    + right. exists (1, [-2]), (-2). split; [reflexivity|]. split; [left | reflexivity].
  - apply Hraise. apply (bool_decide_unpack _). vm_compute. exact I.
Defined.

End GraphTableauIntFacts.
